(** * Flappy Bird: the simulation engine of [flappy-bird.tsx]

    The React component keeps five pieces of state (bird, pipes, score,
    gameState, highScore) and changes them from two callbacks: [jump]
    (keyboard / pointer input) and [gameLoop] (one animation frame).  The
    embedding below turns the component state into a record and each
    callback into a function on that record.

    Reading of the React machinery.  A callback sees the [score] and
    [gameState] of the render that created it; every change of either one
    re-creates the callbacks and re-arms the frame request, so a frame
    always runs with the values the state held when the frame started.
    State setters that take an updater are applied in the order they were
    called.  [Math.random()] is an argument of the frame.

    Numbers.  A JavaScript [number] is an IEEE binary64 value.  The engine
    is written once over an interface [Number] and read in two ways:
    [Exact] (rationals, no rounding) and [Binary64] (the kernel's
    primitive floats, which compute like the JavaScript engine does).
    The bird's position and velocity are small multiples of 1/2 and the
    pipes' abscissas small integers, so the two readings compute the same
    values for them; they can differ in the last place of a pipe's
    [topHeight] and [bottomY], which come from the random draw.  Scores
    are integer counters and are read as integers, which is what the
    [number] holds as long as a score is below 2^53. *)

From Stdlib Require Import ZArith QArith Lqa Lia List Bool Sorted.
From Stdlib Require PrimFloat String DecimalString.
Import ListNotations.

(** ** Numbers *)

Class Number (num : Type) : Type := {
  num_lit : Z -> num;            (* an integer literal *)
  num_half : num;                (* the literal 0.5 *)
  num_add : num -> num -> num;
  num_sub : num -> num -> num;
  num_mul : num -> num -> num;
  num_opp : num -> num;
  num_ltb : num -> num -> bool;
  num_leb : num -> num -> bool
}.

Declare Scope js_scope.
Delimit Scope js_scope with js.
Notation "a + b" := (num_add a b) : js_scope.
Notation "a - b" := (num_sub a b) : js_scope.
Notation "a * b" := (num_mul a b) : js_scope.
Notation "- a" := (num_opp a) : js_scope.
Notation "a <? b" := (num_ltb a b) : js_scope.
Notation "a <=? b" := (num_leb a b) : js_scope.
Notation "a >? b" := (num_ltb b a) : js_scope.
Notation "a >=? b" := (num_leb b a) : js_scope.

(** ** Data model (lines 7-18 and 33-37) *)

Module Bird.
Record t (num : Type) : Type := mk { x : num; y : num; velocity : num }.
Arguments mk {num} _ _ _.
Arguments x {num} _.
Arguments y {num} _.
Arguments velocity {num} _.
End Bird.

Module Pipe.
Record t (num : Type) : Type :=
  mk { x : num; topHeight : num; bottomY : num; passed : bool }.
Arguments mk {num} _ _ _ _.
Arguments x {num} _.
Arguments topHeight {num} _.
Arguments bottomY {num} _.
Arguments passed {num} _.
End Pipe.

Inductive GameState : Type := menu | playing | gameOver.

Record State (num : Type) : Type := mkState {
  bird : Bird.t num;
  pipes : list (Pipe.t num);
  score : Z;
  gameState : GameState;
  highScore : Z
}.
Arguments mkState {num} _ _ _ _ _.
Arguments bird {num} _.
Arguments pipes {num} _.
Arguments score {num} _.
Arguments gameState {num} _.
Arguments highScore {num} _.

(** What one input or one frame is: the frame carries the value that
  [Math.random()] returns if the frame asks for it. *)
Inductive Event (num : Type) : Type :=
| Frame (random : num)
| Impulse.
Arguments Frame {num} _.
Arguments Impulse {num}.

Section Engine.
Context {num : Type} `{Number num}.
Local Open Scope js_scope.

(** Constants (lines 20-27). *)
Definition CANVAS_WIDTH : num := num_lit 400.
Definition CANVAS_HEIGHT : num := num_lit 600.
Definition BIRD_SIZE : num := num_lit 20.
Definition PIPE_WIDTH : num := num_lit 60.
Definition PIPE_GAP : num := num_lit 150.
Definition GRAVITY : num := num_half.
Definition JUMP_FORCE : num := num_lit (-8).
Definition PIPE_SPEED : num := num_lit 2.

(** The component state of the first render (lines 33-37). *)
Definition startBird : Bird.t num :=
  Bird.mk (num_lit 100) (num_lit 300) (num_lit 0).

Definition initial : State num := mkState startBird [] 0 menu 0.

(** [initGame] (lines 40-45): the high score is not touched. *)
Definition initGame (g : State num) : State num :=
  mkState startBird [] 0 playing (highScore g).

(** [jump] (lines 48-54). *)
Definition jump (g : State num) : State num :=
  match gameState g with
  | playing =>
      let prev := bird g in
      mkState (Bird.mk (Bird.x prev) (Bird.y prev) JUMP_FORCE)
              (pipes g) (score g) (gameState g) (highScore g)
  | menu | gameOver => initGame g
  end.

(** [generatePipe] (lines 57-65). *)
Definition generatePipe (random : num) : Pipe.t num :=
  let topHeight :=
    random * (CANVAS_HEIGHT - PIPE_GAP - num_lit 100) + num_lit 50 in
  Pipe.mk CANVAS_WIDTH topHeight (topHeight + PIPE_GAP) false.

(** The test of the loop body of [checkCollision] (lines 76-80). *)
Definition hitsPipe (bird : Bird.t num) (pipe : Pipe.t num) : bool :=
  (Bird.x bird + BIRD_SIZE >? Pipe.x pipe)
  && (Bird.x bird <? Pipe.x pipe + PIPE_WIDTH)
  && ((Bird.y bird <? Pipe.topHeight pipe)
      || (Bird.y bird + BIRD_SIZE >? Pipe.bottomY pipe)).

(** [checkCollision] (lines 68-86): the loop returns at the first pipe
    that is hit. *)
Definition checkCollision (bird : Bird.t num) (pipes : list (Pipe.t num))
  : bool :=
  if (Bird.y bird <=? num_lit 0)
     || (Bird.y bird >=? CANVAS_HEIGHT - BIRD_SIZE)
  then true
  else existsb (hitsPipe bird) pipes.

(** The last element of an array, when there is one. *)
Fixpoint lastPipe (ps : list (Pipe.t num)) : option (Pipe.t num) :=
  match ps with
  | [] => None
  | [p] => Some p
  | _ :: rest => lastPipe rest
  end.

(** Line 100: every pipe moves left. *)
Definition movePipe (pipe : Pipe.t num) : Pipe.t num :=
  Pipe.mk (Pipe.x pipe - PIPE_SPEED) (Pipe.topHeight pipe)
          (Pipe.bottomY pipe) (Pipe.passed pipe).

(** Line 103: the pipes that stay. *)
Definition onScreen (pipe : Pipe.t num) : bool :=
  Pipe.x pipe >? - PIPE_WIDTH.

(** Line 106: the test for a new pipe; [||] does not read the last
    element of an empty array. *)
Definition needsPipe (ps : list (Pipe.t num)) : bool :=
  match lastPipe ps with
  | None => true
  | Some p => Pipe.x p <? CANVAS_WIDTH - num_lit 200
  end.

(** Lines 106-108. *)
Definition addPipe (random : num) (ps : list (Pipe.t num))
  : list (Pipe.t num) :=
  if needsPipe ps then ps ++ [generatePipe random] else ps.

(** Line 112: the test of the scoring loop. *)
Definition crosses (birdX : num) (pipe : Pipe.t num) : bool :=
  negb (Pipe.passed pipe) && (Pipe.x pipe + PIPE_WIDTH <? birdX).

(** Lines 111-116: [forEach] walks the array once; a pipe that crosses
    is marked in place and one [setScore (prev => prev + 1)] is queued.
    The result is the array after the walk and the score after the
    queued updaters ran.  The score is read as an integer: [prev + 1] on
    a JavaScript number is that integer's successor as long as the score
    is below 2^53, and the statements about counting keep to that
    range. *)
Fixpoint checkForScore (birdX : num) (ps : list (Pipe.t num)) (score : Z)
  : list (Pipe.t num) * Z :=
  match ps with
  | [] => ([], score)
  | pipe :: rest =>
      if crosses birdX pipe
      then
        let (rest', score') := checkForScore birdX rest (score + 1) in
        (Pipe.mk (Pipe.x pipe) (Pipe.topHeight pipe) (Pipe.bottomY pipe)
                 true :: rest', score')
      else
        let (rest', score') := checkForScore birdX rest score in
        (pipe :: rest', score')
  end.

(** Lines 92-97: the bird of the next frame. *)
Definition fall (prev : Bird.t num) : Bird.t num :=
  Bird.mk (Bird.x prev)
          (Bird.y prev + Bird.velocity prev + GRAVITY)
          (Bird.velocity prev + GRAVITY).

(** [gameLoop] (lines 89-131).  [score g] in the last field is the
    [score] of the closure (line 121), not the queued one. *)
Definition gameLoop (random : num) (g : State num) : State num :=
  match gameState g with
  | playing =>
      let newBird := fall (bird g) in
      let newPipes := map movePipe (pipes g) in
      let newPipes := filter onScreen newPipes in
      let newPipes := addPipe random newPipes in
      let (newPipes, newScore) :=
        checkForScore (Bird.x newBird) newPipes (score g) in
      if checkCollision newBird newPipes
      then mkState newBird newPipes newScore gameOver
                   (Z.max (highScore g) (score g))
      else mkState newBird newPipes newScore playing (highScore g)
  | menu | gameOver => g
  end.

(** One event, and a sequence of events. *)
Definition step (e : Event num) (g : State num) : State num :=
  match e with
  | Frame random => gameLoop random g
  | Impulse => jump g
  end.

Definition run (events : list (Event num)) (g : State num) : State num :=
  fold_left (fun g e => step e g) events g.

(** [Math.random()] returns a number in [0, 1). *)
Definition unitDraw (random : num) : bool :=
  (num_lit 0 <=? random) && (random <? num_lit 1).

Definition validEvent (e : Event num) : bool :=
  match e with
  | Frame random => unitDraw random
  | Impulse => true
  end.

(** The states the component can be in. *)
Inductive reachable : State num -> Prop :=
| reachable_initial : reachable initial
| reachable_step e g :
    validEvent e = true -> reachable g -> reachable (step e g).

End Engine.

(** ** The two readings of [number] *)

Module Exact.

Definition Qltb (a b : Q) : bool :=
  (Qnum a * QDen b <? Qnum b * QDen a)%Z.

#[export] Instance QNumber : Number Q := {|
  num_lit := inject_Z;
  num_half := 1 # 2;
  num_add := Qplus;
  num_sub := Qminus;
  num_mul := Qmult;
  num_opp := Qopp;
  num_ltb := Qltb;
  num_leb := Qle_bool
|}.

End Exact.

Module Binary64.
Import PrimFloat.

(** An integer literal; exact below 2^53. *)
Fixpoint of_positive (p : positive) : float :=
  match p with
  | xH => 1%float
  | xO q => (2 * of_positive q)%float
  | xI q => (2 * of_positive q + 1)%float
  end.

Definition of_Z (z : Z) : float :=
  match z with
  | Z0 => 0%float
  | Zpos p => of_positive p
  | Zneg p => (- of_positive p)%float
  end.

#[export] Instance FloatNumber : Number float := {|
  num_lit := of_Z;
  num_half := 0.5%float;
  num_add := PrimFloat.add;
  num_sub := PrimFloat.sub;
  num_mul := PrimFloat.mul;
  num_opp := PrimFloat.opp;
  num_ltb := PrimFloat.ltb;
  num_leb := PrimFloat.leb
|}.

(** A draw in [0, 1) on which [topHeight + PIPE_GAP] is not exact:
    0.25 + 2^-46. *)
Definition oddDraw : float := (0.25 + 0x1p-46)%float.

End Binary64.

Import Exact Binary64.

(** ** Auxiliary notions used in the statements *)

Section Notions.
Context {num : Type} `{Number num}.
Local Open Scope js_scope.

(** What the scoring loop leaves of one pipe. *)
Definition markPassed (birdX : num) (pipe : Pipe.t num) : Pipe.t num :=
  Pipe.mk (Pipe.x pipe) (Pipe.topHeight pipe) (Pipe.bottomY pipe)
          (Pipe.passed pipe || crosses birdX pipe).

(** The pipes a frame has before its scoring loop, the number of
    [setScore] calls of that loop, and the pipes after it. *)
Definition pipesBeforeScoring (random : num) (g : State num)
  : list (Pipe.t num) :=
  addPipe random (filter onScreen (map movePipe (pipes g))).

Definition gained (random : num) (g : State num) : nat :=
  length (filter (crosses (Bird.x (bird g))) (pipesBeforeScoring random g)).

Definition nextPipes (random : num) (g : State num) : list (Pipe.t num) :=
  map (markPassed (Bird.x (bird g))) (pipesBeforeScoring random g).

(** The way [generatePipe] builds [bottomY]. *)
Definition gapRule (pipe : Pipe.t num) : Prop :=
  Pipe.bottomY pipe = Pipe.topHeight pipe + PIPE_GAP.

(** A run of frames only. *)
Definition frames (draws : list num) : list (Event num) := map Frame draws.

(** The game is started and the bird kept between y = 240 and y = 300
    by an impulse every 31 frames, for 181 frames, every frame with the
    same draw.  The first pipe then stands at x = 40. *)
Definition hoverWith (draw : num) : list (Event num) :=
  Impulse
    :: concat (repeat (Impulse :: frames (repeat draw 31)) 5)
    ++ Impulse :: frames (repeat draw 26).

(** No [initGame] happens along the events: every impulse arrives while
    the game is being played. *)
Fixpoint sameSession (events : list (Event num)) (g : State num) : Prop :=
  match events with
  | [] => True
  | e :: rest =>
      match e with
      | Impulse => gameState g = playing
      | Frame _ => True
      end /\ sameSession rest (step e g)
  end.

End Notions.

(** ** Notions of the exact reading *)

Section ExactNotions.
Local Open Scope Q_scope.

(** Two half-open intervals [a, b) and [c, d) overlap when they share a
    point. *)
Definition overlap (a b c d : Q) : Prop :=
  exists z : Q, (a <= z /\ z < b) /\ (c <= z /\ z < d).

(** The pipe sequence after steps 2 to 4 of a tick, in the words of the
    specification: every [x] lowered by [PIPE_SPEED], the pipes with
    [x <= -PIPE_WIDTH] dropped, and one generated pipe appended when the
    sequence is empty or its rightmost [x] is below [CANVAS_WIDTH - 200]. *)
Definition advanced (ps : list (Pipe.t Q)) : list (Pipe.t Q) :=
  map (fun p => Pipe.mk (Pipe.x p - PIPE_SPEED) (Pipe.topHeight p)
                        (Pipe.bottomY p) (Pipe.passed p)) ps.

Definition offLeft (p : Pipe.t Q) : bool :=
  Qle_bool (Pipe.x p) (- PIPE_WIDTH).

Definition spawnDue (ps : list (Pipe.t Q)) : bool :=
  match rev ps with
  | [] => true
  | rightmost :: _ => Qltb (Pipe.x rightmost) (CANVAS_WIDTH - 200)
  end.

Definition specPipes (random : Q) (ps : list (Pipe.t Q)) : list (Pipe.t Q) :=
  let kept := filter (fun p => negb (offLeft p)) (advanced ps) in
  kept ++ (if spawnDue kept then [generatePipe random] else []).

(** Same place and same gap; the [passed] flag may differ. *)
Definition sameGeometry (p q : Pipe.t Q) : Prop :=
  Pipe.x p = Pipe.x q
  /\ Pipe.topHeight p = Pipe.topHeight q
  /\ Pipe.bottomY p = Pipe.bottomY q.

(** The test of the scoring loop, read on a pipe before it moves. *)
Definition crossesNow (g : State Q) (p : Pipe.t Q) : bool :=
  negb (Pipe.passed p)
  && Qltb (Pipe.x p - PIPE_SPEED + PIPE_WIDTH) (Bird.x (bird g)).

(** What the scoring loop makes of a pipe of the state the frame started
    from: moved, and marked if it was marked or crosses now. *)
Definition scored (g : State Q) (p : Pipe.t Q) : Pipe.t Q :=
  Pipe.mk (Pipe.x p - PIPE_SPEED) (Pipe.topHeight p) (Pipe.bottomY p)
          (Pipe.passed p || crossesNow g p).

(** The pipe is still on screen after it moved. *)
Definition staysOn (p : Pipe.t Q) : bool := onScreen (movePipe p).

(** Consecutive pipes are more than 200 apart. *)
Definition spaced (p q : Pipe.t Q) : Prop := Pipe.x p + 200 < Pipe.x q.

(** Every pipe keeps 50 above and below its gap, and is marked passed
    once its right edge is left of x = 100. *)
Definition pipeOK (p : Pipe.t Q) : Prop :=
  50 <= Pipe.topHeight p
  /\ Pipe.bottomY p <= 550
  /\ (Pipe.passed p = false -> 40 <= Pipe.x p).

(** What holds of every state in which the game is being played.  The
    bound [alive_energy] follows the free fall after an impulse from
    y > 0; [alive_exit] keeps, for the pipe that is about to be passed,
    what the bird's passage through its gap two frames earlier gives. *)
Record Alive (g : State Q) : Prop := {
  alive_x : Bird.x (bird g) == 100;
  alive_clear : checkCollision (bird g) (pipes g) = false;
  alive_velocity : -8 <= Bird.velocity (bird g);
  alive_energy :
    Bird.velocity (bird g) * Bird.velocity (bird g)
    + (1 # 2) * Bird.velocity (bird g) - 60 < Bird.y (bird g);
  alive_pipes : Forall pipeOK (pipes g);
  alive_spaced : StronglySorted spaced (pipes g);
  alive_exit :
    forall p, In p (pipes g) -> Pipe.passed p = false -> Pipe.x p < 42 ->
      Bird.y (bird g) + Bird.velocity (bird g) + (1 # 2) < 580
      /\ 8 < Bird.y (bird g)
}.

Definition invariant (g : State Q) : Prop :=
  gameState g = playing -> Alive g.

(** Hovering with the draw 3/8: every pipe has its gap from 181.25 to
    331.25. *)
Definition hover : list (Event Q) := hoverWith (3 # 8).

(** After [hover] the bird is left alone for 26 frames: the first pipe
    is passed on the first of them, and the next frame reaches the
    ground. *)
Definition hoverThenFall : list (Event Q) :=
  hover ++ frames (repeat (3 # 8) 26).

(** The pipe a frame appends, if it appends one (lines 106-108, in the
    words of [specPipes]). *)
Definition spawned (random : Q) (ps : list (Pipe.t Q)) : list (Pipe.t Q) :=
  if spawnDue (filter (fun p => negb (offLeft p)) (advanced ps))
  then [generatePipe random] else [].

(** A Playing state whose next frame passes the pipe and reaches the
    ground at once: the pipe's right edge moves from 100 to 98, the bird
    from y = 570 to y = 580.5.  Score 3, high score 2. *)
Definition lastFramePoint : State Q :=
  mkState (Bird.mk 100 570 10) [Pipe.mk 40 100 250 false] 3 playing 2.


(** A Playing state with three unmarked pipes: the first leaves the
    screen on the next frame, the right edge of the second moves from 100
    to 98, the third is still ahead.  Score 7, high score 9. *)
Definition crowded : State Q :=
  mkState (Bird.mk 100 300 0)
          [Pipe.mk (-59) 100 250 false; Pipe.mk 40 120 270 false;
           Pipe.mk 242 90 240 false]
          7 playing 9.

End ExactNotions.

(** ** Input, overlays and the picture (lines 145-215 and 238-261) *)

(** The overlay the component renders over the canvas (lines 238-261):
    the menu card, or the game-over card with the two numbers it shows. *)
Inductive Overlay : Type :=
| MenuOverlay
| GameOverOverlay (shownScore shownHighScore : Z).

(** The calls the drawing effect makes on the 2D context (lines 159-215). *)
Inductive Cmd (num : Type) : Type :=
| fillStyle (color : String.string)
| fillRect (x y w h : num)
| beginPath
| arc (x y radius startAngle endAngle : num)
| fill
| moveTo (x y : num)
| lineTo (x y : num)
| closePath
| font (value : String.string)
| textAlign (value : String.string)
| fillText (text : String.string) (x y : num).
Arguments fillStyle {num} _.
Arguments fillRect {num} _ _ _ _.
Arguments beginPath {num}.
Arguments arc {num} _ _ _ _ _.
Arguments fill {num}.
Arguments moveTo {num} _ _.
Arguments lineTo {num} _ _.
Arguments closePath {num}.
Arguments font {num} _.
Arguments textAlign {num} _.
Arguments fillText {num} _ _ _.

Section Surface.
Import String.
Context {num : Type} `{Number num}.
Local Open Scope js_scope.

(** [handleKeyPress] (lines 147-152): whether the key's default action
    was prevented, and the state after the key. *)
Definition handleKeyPress (code : string) (g : State num)
  : bool * State num :=
  if String.eqb code "Space" then (true, jump g) else (false, g).

(** Key presses one after the other, each seeing the state the one before
    left. *)
Definition keydowns (codes : list string) (g : State num) : State num :=
  fold_left (fun g code => snd (handleKeyPress code g)) codes g.

(** Lines 238 and 250: each card is rendered when its test holds. *)
Definition overlays (g : State num) : list Overlay :=
  match gameState g with
  | menu => [MenuOverlay]
  | _ => []
  end
  ++ match gameState g with
     | gameOver => [GameOverOverlay (score g) (highScore g)]
     | _ => []
     end.

(** The operator [/] and [Math.PI] are not part of [Number]; the drawing
    takes them as given. *)
Variable div : num -> num -> num.
Variable PI : num.

(** Lines 172-184: the body of the loop over the pipes. *)
Definition drawPipe (pipe : Pipe.t num) : list (Cmd num) :=
  [ fillRect (Pipe.x pipe) (num_lit 0) PIPE_WIDTH (Pipe.topHeight pipe);
    fillRect (Pipe.x pipe) (Pipe.bottomY pipe) PIPE_WIDTH
             (CANVAS_HEIGHT - Pipe.bottomY pipe);
    fillStyle "#32CD32";
    fillRect (Pipe.x pipe - num_lit 5) (Pipe.topHeight pipe - num_lit 20)
             (PIPE_WIDTH + num_lit 10) (num_lit 20);
    fillRect (Pipe.x pipe - num_lit 5) (Pipe.bottomY pipe)
             (PIPE_WIDTH + num_lit 10) (num_lit 20);
    fillStyle "#228B22" ].

(** Lines 186-204: body, eye and beak of the bird. *)
Definition drawBird (bird : Bird.t num) : list (Cmd num) :=
  [ fillStyle "#FFD700";
    beginPath;
    arc (Bird.x bird + div BIRD_SIZE (num_lit 2))
        (Bird.y bird + div BIRD_SIZE (num_lit 2))
        (div BIRD_SIZE (num_lit 2)) (num_lit 0) (PI * num_lit 2);
    fill;
    fillStyle "#000";
    beginPath;
    arc (Bird.x bird + div BIRD_SIZE (num_lit 2) + num_lit 5)
        (Bird.y bird + div BIRD_SIZE (num_lit 2) - num_lit 3)
        (num_lit 3) (num_lit 0) (PI * num_lit 2);
    fill;
    fillStyle "#FF8C00";
    beginPath;
    moveTo (Bird.x bird + BIRD_SIZE)
           (Bird.y bird + div BIRD_SIZE (num_lit 2));
    lineTo (Bird.x bird + BIRD_SIZE + num_lit 8)
           (Bird.y bird + div BIRD_SIZE (num_lit 2) - num_lit 2);
    lineTo (Bird.x bird + BIRD_SIZE + num_lit 8)
           (Bird.y bird + div BIRD_SIZE (num_lit 2) + num_lit 2);
    closePath;
    fill ].

(** The drawing effect (lines 159-215), for a canvas with a 2D context:
    sky, pipes, bird, ground, score. *)
Definition draw (g : State num) : list (Cmd num) :=
  [ fillStyle "#87CEEB";
    fillRect (num_lit 0) (num_lit 0) CANVAS_WIDTH CANVAS_HEIGHT;
    fillStyle "#228B22" ]
  ++ flat_map drawPipe (pipes g)
  ++ drawBird (bird g)
  ++ [ fillStyle "#8B4513";
       fillRect (num_lit 0) (CANVAS_HEIGHT - num_lit 20) CANVAS_WIDTH
                (num_lit 20);
       fillStyle "#FFF";
       font "bold 24px Arial";
       textAlign "center";
       fillText (DecimalString.NilZero.string_of_int (Z.to_int (score g)))
                (div CANVAS_WIDTH (num_lit 2)) (num_lit 50) ].

End Surface.

(** ** Notions of the exact reading: the picture and the course of play *)

Section ExactPicture.
Import String.
Local Open Scope Q_scope.

(** A rectangle as [fillRect] takes it: x, y, width, height. *)
Definition Rect : Type := (Q * Q * Q * Q)%type.

(** The rectangles a command list fills, each with the fill style in
    force when it is filled. *)
Fixpoint painted (style : string) (cmds : list (Cmd Q))
  : list (string * Rect) :=
  match cmds with
  | [] => []
  | fillStyle color :: rest => painted color rest
  | fillRect x y w h :: rest => (style, (x, y, w, h)) :: painted style rest
  | _ :: rest => painted style rest
  end.

(** A point of the rectangle, edges on the left and on top included. *)
Definition inRect (r : Rect) (px py : Q) : Prop :=
  let '(x, y, w, h) := r in
  (x <= px /\ px < x + w) /\ (y <= py /\ py < y + h).

Definition rectOverlap (a b : Rect) : Prop :=
  exists px py, inRect a px py /\ inRect b px py.

(** The square around the circle that [drawBird] fills for the body. *)
Definition birdBox (b : Bird.t Q) : Rect :=
  (Bird.x b + BIRD_SIZE / 2 - BIRD_SIZE / 2,
   Bird.y b + BIRD_SIZE / 2 - BIRD_SIZE / 2,
   BIRD_SIZE / 2 + BIRD_SIZE / 2,
   BIRD_SIZE / 2 + BIRD_SIZE / 2).

(** The picture of a state, with [/] read as division in [Q]. *)
Definition picture (PI : Q) (g : State Q) : list (string * Rect) :=
  painted "#000000" (draw Qdiv PI g).

(** Consecutive pipes stand exactly 202 apart. *)
Fixpoint evenlySpaced (ps : list (Pipe.t Q)) : Prop :=
  match ps with
  | [] => True
  | p :: rest =>
      match rest with
      | [] => True
      | q :: _ => Pipe.x q == Pipe.x p + 202
      end /\ evenlySpaced rest
  end.

(** The abscissa of a pipe is 400 less an even number of steps. *)
Definition onGrid (p : Pipe.t Q) : Prop :=
  exists k : Z, (0 <= k)%Z /\ Pipe.x p == 400 - 2 * inject_Z k.

(** What holds of the bird's abscissa and of the pipes in every state,
    played or not. *)
Record Course (g : State Q) : Prop := {
  course_x : Bird.x (bird g) == 100;
  course_window :
    Forall (fun p => -60 < Pipe.x p /\ Pipe.x p <= 400) (pipes g);
  course_grid : Forall onGrid (pipes g);
  course_even : evenlySpaced (pipes g);
  course_last :
    forall p, lastPipe (pipes g) = Some p -> 200 <= Pipe.x p;
  course_passed :
    Forall (fun p => Pipe.passed p = true <-> Pipe.x p + 60 < 100) (pipes g)
}.

(** The fill style in force after a command list. *)
Fixpoint styleAfter (style : string) (cmds : list (Cmd Q)) : string :=
  match cmds with
  | [] => style
  | fillStyle color :: rest => styleAfter color rest
  | _ :: rest => styleAfter style rest
  end.

(** The four rectangles of a pipe: the two bodies and the two caps. *)
Definition topBody (p : Pipe.t Q) : Rect :=
  (Pipe.x p, 0, PIPE_WIDTH, Pipe.topHeight p).
Definition bottomBody (p : Pipe.t Q) : Rect :=
  (Pipe.x p, Pipe.bottomY p, PIPE_WIDTH, CANVAS_HEIGHT - Pipe.bottomY p).
Definition topCap (p : Pipe.t Q) : Rect :=
  (Pipe.x p - 5, Pipe.topHeight p - 20, PIPE_WIDTH + 10, 20).
Definition bottomCap (p : Pipe.t Q) : Rect :=
  (Pipe.x p - 5, Pipe.bottomY p, PIPE_WIDTH + 10, 20).

Definition pipeRects (p : Pipe.t Q) : list (string * Rect) :=
  [ ("#228B22"%string, topBody p); ("#228B22"%string, bottomBody p);
    ("#32CD32"%string, topCap p); ("#32CD32"%string, bottomCap p) ].

(** The strip filled for the ground (line 208). *)
Definition groundStrip : Rect := (0, CANVAS_HEIGHT - 20, CANVAS_WIDTH, 20).

(** An integer multiple of 1/2. *)
Definition halfInteger (q : Q) : Prop :=
  exists k : Z, q == inject_Z k * (1 # 2).

(** The number of frames as a rational. *)
Definition count (draws : list Q) : Q :=
  inject_Z (Z.of_nat (List.length draws)).

End ExactPicture.

(** * Properties *)

(** ** Facts that hold in every reading of [number] *)

Section EngineFacts.
Context {num : Type} `{Number num}.
Local Open Scope js_scope.

Lemma checkForScore_pipes (birdX : num) (ps : list (Pipe.t num)) (sc : Z) :
  fst (checkForScore birdX ps sc) = map (markPassed birdX) ps.
Proof.
  revert sc; induction ps as [|p rest IH]; intros sc; simpl; [reflexivity|].
  unfold markPassed at 1.
  destruct (crosses birdX p) eqn:Ec.
  - specialize (IH (sc + 1)%Z).
    destruct (checkForScore birdX rest (sc + 1)); simpl in *.
    rewrite IH, orb_true_r; reflexivity.
  - specialize (IH sc).
    destruct (checkForScore birdX rest sc); simpl in *.
    rewrite IH, orb_false_r. destruct p; reflexivity.
Qed.

Lemma checkForScore_score (birdX : num) (ps : list (Pipe.t num)) (sc : Z) :
  snd (checkForScore birdX ps sc)
  = (sc + Z.of_nat (length (filter (crosses birdX) ps)))%Z.
Proof.
  revert sc; induction ps as [|p rest IH]; intros sc; simpl; [lia|].
  destruct (crosses birdX p) eqn:Ec.
  - specialize (IH (sc + 1)%Z).
    destruct (checkForScore birdX rest (sc + 1)); simpl in *. lia.
  - specialize (IH sc).
    destruct (checkForScore birdX rest sc); simpl in *. lia.
Qed.

Lemma gameLoop_playing (random : num) (g : State num) :
  gameState g = playing ->
  gameLoop random g =
    let hit := checkCollision (fall (bird g)) (nextPipes random g) in
    mkState (fall (bird g)) (nextPipes random g)
            (score g + Z.of_nat (gained random g))
            (if hit then gameOver else playing)
            (if hit then Z.max (highScore g) (score g) else highScore g).
Proof.
  intros Hp. unfold gameLoop. rewrite Hp.
  fold (pipesBeforeScoring random g).
  pose proof (checkForScore_pipes (Bird.x (fall (bird g)))
                (pipesBeforeScoring random g) (score g)) as Hf.
  pose proof (checkForScore_score (Bird.x (fall (bird g)))
                (pipesBeforeScoring random g) (score g)) as Hs.
  destruct (checkForScore _ _ _) as [ps sc]; simpl in Hf, Hs.
  subst ps sc. unfold nextPipes, gained. simpl.
  destruct (checkCollision _ _); reflexivity.
Qed.

Lemma gameLoop_idle (random : num) (g : State num) :
  gameState g <> playing -> gameLoop random g = g.
Proof.
  intros Hn. unfold gameLoop. destruct (gameState g); congruence.
Qed.

End EngineFacts.

Section Lifecycle.
Context {num : Type} `{Number num}.
Local Open Scope js_scope.

Lemma run_app (l1 l2 : list (Event num)) (g : State num) :
  run (l1 ++ l2) g = run l2 (run l1 g).
Proof. unfold run. apply fold_left_app. Qed.

Lemma reachable_run (events : list (Event num)) (g : State num) :
  forallb validEvent events = true -> reachable g ->
  reachable (run events g).
Proof.
  revert g; induction events as [|e rest IH]; intros g Hv Hg; simpl in *.
  - exact Hg.
  - apply andb_true_iff in Hv as [He Hrest].
    apply IH; [exact Hrest|]. constructor; assumption.
Qed.

(** C7: an impulse in Menu or GameOver starts a game: state Playing,
    score 0, the bird at x = 100, y = 300 with velocity 0, no pipes. *)
Theorem jump_starts_game (g : State num) :
  gameState g = menu \/ gameState g = gameOver ->
  gameState (jump g) = playing
  /\ score (jump g) = 0%Z
  /\ bird (jump g) = Bird.mk (num_lit 100) (num_lit 300) (num_lit 0)
  /\ pipes (jump g) = [].
Proof.
  intros [Hg | Hg]; unfold jump; rewrite Hg; simpl; repeat split.
Qed.

(** C8: in Menu and in GameOver a frame changes nothing, however many
    frames run: bird, pipes, score, high score and game state stay. *)
Theorem frames_inert (g : State num) (draws : list num) :
  gameState g = menu \/ gameState g = gameOver ->
  run (frames draws) g = g.
Proof.
  intros Hg. induction draws as [|r rest IH]; [reflexivity|].
  unfold frames, run; cbn [map fold_left step].
  rewrite gameLoop_idle; [exact IH|].
  destruct Hg as [Hg | Hg]; rewrite Hg; discriminate.
Qed.

Lemma highScore_jump (g : State num) : highScore (jump g) = highScore g.
Proof. unfold jump. destruct (gameState g); reflexivity. Qed.

Lemma highScore_gameLoop (random : num) (g : State num) :
  highScore (gameLoop random g) = highScore g
  \/ (gameState g = playing
      /\ gameState (gameLoop random g) = gameOver
      /\ highScore (gameLoop random g)
         = Z.max (highScore g) (score g)).
Proof.
  destruct (gameState g) eqn:Hg;
    try (left; rewrite gameLoop_idle; [reflexivity | congruence]).
  rewrite (gameLoop_playing random g Hg); simpl.
  destruct (checkCollision _ _); [right | left]; repeat split.
Qed.

Lemma highScore_step (e : Event num) (g : State num) :
  (highScore g <= highScore (step e g))%Z.
Proof.
  destruct e as [r|]; unfold step.
  - destruct (highScore_gameLoop r g) as [E | (_ & _ & E)]; rewrite E;
      [apply Z.le_refl | apply Z.le_max_l].
  - rewrite highScore_jump; lia.
Qed.

(** C9: the high score never decreases along any sequence of frames and
    impulses; an event that changes it is a frame that takes the game
    from Playing to GameOver; [jump] and [initGame] keep it. *)
Theorem highScore_only_grows
  (g : State num) (events : list (Event num)) (e : Event num) :
  (highScore g <= highScore (run events g))%Z
  /\ (highScore (step e g) = highScore g
      \/ ((exists random, e = Frame random)
          /\ gameState g = playing
          /\ gameState (step e g) = gameOver))
  /\ highScore (jump g) = highScore g
  /\ highScore (initGame g) = highScore g.
Proof.
  repeat split.
  - revert g; induction events as [|e' rest IH]; intros g.
    + apply Z.le_refl.
    + change (run (e' :: rest) g) with (run rest (step e' g)).
      eapply Z.le_trans; [apply highScore_step | apply IH].
  - destruct e as [r|]; unfold step.
    + destruct (highScore_gameLoop r g) as [E | (Hp & Ho & _)].
      * left; exact E.
      * right; repeat split; eauto.
    + left; apply highScore_jump.
  - apply highScore_jump.
Qed.

(** [checkCollision] in terms of the comparisons it makes, in every
    reading of [number]. *)
Lemma checkCollision_true_iff (b : Bird.t num) (ps : list (Pipe.t num)) :
  checkCollision b ps = true <->
  (Bird.y b <=? num_lit 0) = true
  \/ (Bird.y b >=? CANVAS_HEIGHT - BIRD_SIZE) = true
  \/ exists p, In p ps
       /\ (Bird.x b + BIRD_SIZE >? Pipe.x p) = true
       /\ (Bird.x b <? Pipe.x p + PIPE_WIDTH) = true
       /\ ((Bird.y b <? Pipe.topHeight p) = true
           \/ (Bird.y b + BIRD_SIZE >? Pipe.bottomY p) = true).
Proof.
  unfold checkCollision.
  destruct (Bird.y b <=? num_lit 0) eqn:Hc; [cbn [orb]; tauto|].
  destruct (Bird.y b >=? CANVAS_HEIGHT - BIRD_SIZE) eqn:Hg;
    [cbn [orb]; tauto|].
  cbn [orb]. rewrite existsb_exists. unfold hitsPipe. split.
  - intros (p & Hin & Hp). right; right. exists p.
    rewrite !andb_true_iff, orb_true_iff in Hp. tauto.
  - intros [Hy | [Hy | (p & Hin & Hp)]]; [discriminate Hy | discriminate Hy |].
    exists p. rewrite !andb_true_iff, orb_true_iff. tauto.
Qed.

Lemma score_step (e : Event num) (g : State num) :
  (e = Impulse -> gameState g = playing) ->
  (score g <= score (step e g))%Z.
Proof.
  intros Hs. destruct e as [random|]; unfold step.
  - destruct (gameState g) eqn:Hg;
      try (rewrite gameLoop_idle by congruence; apply Z.le_refl).
    rewrite (gameLoop_playing random g Hg). cbn [score]. lia.
  - unfold jump. rewrite (Hs eq_refl). cbn [score]. apply Z.le_refl.
Qed.

Lemma score_session (events : list (Event num)) (g : State num) :
  sameSession events g -> (score g <= score (run events g))%Z.
Proof.
  revert g. induction events as [|e rest IH]; intros g Hs.
  - apply Z.le_refl.
  - destruct Hs as [He Hrest].
    change (run (e :: rest) g) with (run rest (step e g)).
    eapply Z.le_trans; [apply score_step | apply IH; exact Hrest].
    intros ->. exact He.
Qed.

(** What line 121 computes, whatever the state: the larger of the old
    high score and the score the frame started with. *)
Lemma collision_reads_start_score (random : num) (g : State num) :
  gameState g = playing ->
  checkCollision (bird (gameLoop random g)) (pipes (gameLoop random g))
  = true ->
  highScore (gameLoop random g) = Z.max (highScore g) (score g).
Proof.
  intros Hp. rewrite (gameLoop_playing random g Hp).
  cbn [bird pipes highScore]. intros Hhit. rewrite Hhit. reflexivity.
Qed.


Lemma gapRule_movePipe (p : Pipe.t num) : gapRule p -> gapRule (movePipe p).
Proof. intros Hp; exact Hp. Qed.

Lemma gapRule_markPassed (bx : num) (p : Pipe.t num) :
  gapRule p -> gapRule (markPassed bx p).
Proof. intros Hp; exact Hp. Qed.

Lemma gapRule_generatePipe (random : num) : gapRule (generatePipe random).
Proof. reflexivity. Qed.

Lemma Forall_addPipe (P : Pipe.t num -> Prop) random ps :
  P (generatePipe random) -> Forall P ps -> Forall P (addPipe random ps).
Proof.
  intros Hn Hps. unfold addPipe. destruct (needsPipe ps); [|exact Hps].
  apply Forall_app; split; [exact Hps | constructor; [exact Hn | constructor]].
Qed.

Lemma Forall_filter (A : Type) (P : A -> Prop) (f : A -> bool) (l : list A) :
  Forall P l -> Forall P (filter f l).
Proof.
  intros Hl. apply Forall_forall. intros a Ha.
  apply filter_In in Ha as [Ha _].
  revert a Ha. apply Forall_forall. exact Hl.
Qed.

Lemma gapRule_nextPipes (random : num) (g : State num) :
  Forall gapRule (pipes g) -> Forall gapRule (nextPipes random g).
Proof.
  intros Hg. unfold nextPipes, pipesBeforeScoring.
  apply Forall_map.
  apply (Forall_impl _ (gapRule_markPassed (Bird.x (bird g)))).
  apply Forall_addPipe; [apply gapRule_generatePipe|].
  apply Forall_filter. apply Forall_map.
  apply (Forall_impl _ gapRule_movePipe). exact Hg.
Qed.

Lemma gapRule_step (e : Event num) (g : State num) :
  Forall gapRule (pipes g) -> Forall gapRule (pipes (step e g)).
Proof.
  intros Hg. destruct e as [r|]; unfold step.
  - destruct (gameState g) eqn:Hs;
      try (rewrite gameLoop_idle; [exact Hg | congruence]).
    rewrite (gameLoop_playing r g Hs); simpl.
    apply gapRule_nextPipes; exact Hg.
  - unfold jump.
    destruct (gameState g); simpl; [constructor | exact Hg | constructor].
Qed.

Lemma reachable_gapRule (g : State num) :
  reachable g -> Forall gapRule (pipes g).
Proof.
  intros Hg. induction Hg as [|e g Hv Hg IH]; [constructor|].
  apply gapRule_step; exact IH.
Qed.

(** C6, as the code has it: in every reachable state every pipe has
    [bottomY] equal to the sum [topHeight + PIPE_GAP] that the engine's
    arithmetic computes; [generatePipe] builds pipes so, and every frame,
    every impulse and [initGame] keep it so. *)
Theorem pipes_keep_gapRule :
  (forall random : num, gapRule (generatePipe random))
  /\ (forall (e : Event num) (g : State num),
         Forall gapRule (pipes g) -> Forall gapRule (pipes (step e g)))
  /\ (forall g : State num, Forall gapRule (pipes (initGame g)))
  /\ (forall g : State num, reachable g -> Forall gapRule (pipes g)).
Proof.
  split; [exact gapRule_generatePipe|].
  split; [exact gapRule_step|].
  split; [intros g; constructor|].
  exact reachable_gapRule.
Qed.

End Lifecycle.

(** ** Worked frames in the two readings *)

Section WorkedFrames.
Import PrimFloat.
Local Open Scope js_scope.

Lemma jump_starts_game_from_menu :
  (gameState (@initial Q _) = menu \/ gameState (@initial Q _) = gameOver)
  /\ gameState (jump (@initial Q _)) = playing
  /\ score (jump (@initial Q _)) = 0%Z
  /\ bird (jump (@initial Q _))
     = Bird.mk (num_lit 100) (num_lit 300) (num_lit 0)
  /\ pipes (jump (@initial Q _)) = [].
Proof.
  split; [left; reflexivity|].
  apply (jump_starts_game (@initial Q _)); left; reflexivity.
Defined.

Lemma frames_inert_in_menu :
  (gameState (@initial Q _) = menu \/ gameState (@initial Q _) = gameOver)
  /\ run (frames [0%Q; 1 # 2]) (@initial Q _) = @initial Q _.
Proof.
  split; [left; reflexivity|].
  apply (frames_inert (@initial Q _) [0%Q; 1 # 2]); left; reflexivity.
Defined.

(** C1, as the code has it: a frame in Playing replaces the bird by
    x, y + velocity + GRAVITY, velocity + GRAVITY, both sums read with
    the velocity the frame started from; from y = 300, velocity = 0
    this is velocity 0.5 and y 300.5, in either reading of [number]. *)
Theorem first_frame :
  (forall (num : Type) (N : Number num) (random : num)
          (b : Bird.t num) ps sc hs,
      bird (gameLoop random (mkState b ps sc playing hs))
      = Bird.mk (Bird.x b)
                (Bird.y b + Bird.velocity b + GRAVITY)
                (Bird.velocity b + GRAVITY))
  /\ (forall random : Q,
         Bird.velocity (bird (gameLoop random (jump initial))) == 1 # 2
         /\ Bird.y (bird (gameLoop random (jump initial))) == 601 # 2)
  /\ (forall random : PrimFloat.float,
         Bird.velocity (bird (gameLoop random (jump initial)))
         = 0.5%float
         /\ Bird.y (bird (gameLoop random (jump initial))) = 300.5%float).
Proof.
  split; [|split].
  - intros num N random b ps sc hs.
    rewrite gameLoop_playing by reflexivity. reflexivity.
  - intros random.
    rewrite gameLoop_playing by reflexivity. split; reflexivity.
  - intros random.
    rewrite gameLoop_playing by reflexivity. split; reflexivity.
Qed.

(** The first frame does not put the bird at y = 301. *)
Lemma first_frame_not_301 :
  ~ (Bird.velocity (bird (gameLoop 0%Q (jump initial))) == 1 # 2
     /\ Bird.y (bird (gameLoop 0%Q (jump initial))) == 301 # 1).
Proof.
  intros [_ Hy]. vm_compute in Hy. discriminate Hy.
Qed.

Lemma first_frame_not_301_binary64 :
  PrimFloat.eqb (Bird.y (bird (gameLoop 0%float (jump initial)))) 301%float
  = false.
Proof. vm_compute. reflexivity. Qed.

(** With the draw 0.25 + 2^-46 the sum [topHeight + PIPE_GAP] is
    rounded, and the pipe of the first frame has
    [bottomY - topHeight] one unit in the last place above 150. *)
Lemma gap_off_by_one_ulp :
  reachable (run [Impulse; Frame oddDraw] initial)
  /\ exists p : Pipe.t PrimFloat.float,
       In p (pipes (run [Impulse; Frame oddDraw] initial))
       /\ Pipe.bottomY p - Pipe.topHeight p = 0x1.2c00000000001p+7%float
       /\ Pipe.bottomY p - Pipe.topHeight p <> PIPE_GAP.
Proof.
  split.
  - apply reachable_run; [vm_compute; reflexivity | constructor].
  - exists (generatePipe oddDraw). split; [|split].
    + vm_compute. left. reflexivity.
    + vm_compute. reflexivity.
    + intros E.
      apply (f_equal (fun z => PrimFloat.eqb z PIPE_GAP)) in E.
      vm_compute in E. discriminate E.
Qed.

(** Other draws in [0, 1) leave the difference two units in the last
    place of 150 away from it, above and below: the largest number below
    1, and 0.9 rounded down. *)
Example gap_off_by_two_ulps :
  unitDraw (1 - 0x1p-53)%float = true
  /\ unitDraw 0x1.ccccccccccccep-1%float = true
  /\ Pipe.bottomY (generatePipe (1 - 0x1p-53)%float)
     - Pipe.topHeight (generatePipe (1 - 0x1p-53)%float)
     = (150 + 0x1p-44)%float
  /\ Pipe.bottomY (generatePipe 0x1.ccccccccccccep-1%float)
     - Pipe.topHeight (generatePipe 0x1.ccccccccccccep-1%float)
     = (150 - 0x1p-44)%float.
Proof. vm_compute. repeat split. Qed.

(** The roundings behind [gap_off_by_one_ulp]: the product and the first
    sum are exact, the second sum falls half way between two numbers. *)
Example oddDraw_trace :
  (oddDraw * 350 = 87.5 + 175 * 0x1p-45)%float
  /\ Pipe.topHeight (generatePipe oddDraw)
     = (137.5 + 175 * 0x1p-45)%float
  /\ Pipe.bottomY (generatePipe oddDraw) = (287.5 + 176 * 0x1p-45)%float.
Proof. vm_compute. repeat split. Qed.

(** The hovering game in binary64, with the draw 0.375: the same course as
    in the exact reading.  The first pipe is passed on frame 182, the
    bird reaches the ground on frame 208. *)
Example hover_binary64 :
  score (run (hoverWith 0.375%float) initial) = 0%Z
  /\ gameState (run (hoverWith 0.375%float) initial) = playing
  /\ score (run (hoverWith 0.375%float ++ frames (repeat 0.375%float 26))
                initial) = 1%Z
  /\ gameState (run (hoverWith 0.375%float ++ frames (repeat 0.375%float 26))
                    initial) = playing
  /\ gameState (run (hoverWith 0.375%float ++ frames (repeat 0.375%float 27))
                    initial) = gameOver
  /\ highScore (run (hoverWith 0.375%float ++ frames (repeat 0.375%float 27))
                    initial) = 1%Z.
Proof. vm_compute. repeat split. Qed.

(** The extreme draws in binary64: 0 gives topHeight 50; the largest
    number below 1 gives topHeight 400 - 2^-44, still below 400, and a
    bottomY rounded up to 550, which is CANVAS_HEIGHT - 50. *)
Example generatePipe_extremes_binary64 :
  Pipe.topHeight (generatePipe 0%float) = 50%float
  /\ Pipe.bottomY (generatePipe 0%float) = 200%float
  /\ Pipe.topHeight (generatePipe (1 - 0x1p-53)%float)
     = (400 - 0x1p-44)%float
  /\ Pipe.bottomY (generatePipe (1 - 0x1p-53)%float)
     = 550%float
  /\ unitDraw (1 - 0x1p-53)%float = true
  /\ unitDraw oddDraw = true.
Proof. vm_compute. repeat split. Qed.

End WorkedFrames.

(** ** The exact reading: comparisons and pipe geometry *)

Section ExactOrder.
Local Open Scope Q_scope.

Lemma ltb_lt (a b : Q) : (a <? b)%js = true <-> a < b.
Proof. unfold num_ltb, QNumber, Qltb, Qlt. apply Z.ltb_lt. Qed.

Lemma ltb_ge (a b : Q) : (a <? b)%js = false <-> b <= a.
Proof. unfold num_ltb, QNumber, Qltb, Qle. apply Z.ltb_ge. Qed.

Lemma leb_le (a b : Q) : (a <=? b)%js = true <-> a <= b.
Proof. apply Qle_bool_iff. Qed.

Lemma leb_gt (a b : Q) : (a <=? b)%js = false <-> b < a.
Proof.
  rewrite <- not_true_iff_false, leb_le. split.
  - apply Qnot_le_lt.
  - apply Qlt_not_le.
Qed.

End ExactOrder.

(** Turns the comparisons of the code into order facts on [Q] and the
    arithmetic of the code into the operations of [Q]. *)
Ltac to_order :=
  repeat match goal with
    | H : (_ || _) = true |- _ => apply orb_true_iff in H
    | H : (_ || _) = false |- _ => apply orb_false_iff in H
    | H : (_ && _) = true |- _ => apply andb_true_iff in H
    | H : negb _ = true |- _ => apply negb_true_iff in H
    | H : negb _ = false |- _ => apply negb_false_iff in H
    | H : _ /\ _ |- _ => destruct H
    | H : num_ltb _ _ = true |- _ => apply ltb_lt in H
    | H : num_ltb _ _ = false |- _ => apply ltb_ge in H
    | H : num_leb _ _ = true |- _ => apply leb_le in H
    | H : num_leb _ _ = false |- _ => apply leb_gt in H
    end.

Ltac to_Q :=
  unfold CANVAS_WIDTH, CANVAS_HEIGHT, BIRD_SIZE, PIPE_WIDTH, PIPE_GAP,
    GRAVITY, JUMP_FORCE, PIPE_SPEED in *;
  cbn [num_lit num_half num_add num_sub num_mul num_opp QNumber] in *;
  unfold inject_Z in *.

Section ExactGeometry.
Local Open Scope Q_scope.

Lemma generatePipe_fields (random : Q) :
  Pipe.x (generatePipe random) == 400
  /\ Pipe.topHeight (generatePipe random) == random * 350 + 50
  /\ Pipe.bottomY (generatePipe random) == random * 350 + 200
  /\ Pipe.passed (generatePipe random) = false.
Proof.
  unfold generatePipe; cbn [Pipe.x Pipe.topHeight Pipe.bottomY Pipe.passed].
  to_Q. repeat split; try reflexivity; ring.
Qed.

Lemma unitDraw_bounds (random : Q) :
  unitDraw random = true <-> 0 <= random /\ random < 1.
Proof.
  unfold unitDraw. rewrite andb_true_iff, leb_le, ltb_lt. to_Q. reflexivity.
Qed.

(** C10: for a draw in [0, 1) the generated pipe has topHeight in
    [50, CANVAS_HEIGHT - PIPE_GAP - 50), its bottomY is at most
    CANVAS_HEIGHT - 50, the segment above the gap and the segment below
    it are at least 50 high, and the gap lies strictly inside the
    canvas. *)
Theorem generatePipe_in_canvas (random : Q) :
  0 <= random -> random < 1 ->
  (50 <= Pipe.topHeight (generatePipe random)
   /\ Pipe.topHeight (generatePipe random) < CANVAS_HEIGHT - PIPE_GAP - 50)
  /\ Pipe.bottomY (generatePipe random) <= CANVAS_HEIGHT - 50
  /\ 50 <= CANVAS_HEIGHT - Pipe.bottomY (generatePipe random)
  /\ (0 < Pipe.topHeight (generatePipe random)
      /\ Pipe.topHeight (generatePipe random)
         < Pipe.bottomY (generatePipe random)
      /\ Pipe.bottomY (generatePipe random) < CANVAS_HEIGHT).
Proof.
  intros H0 H1.
  destruct (generatePipe_fields random) as (_ & Ht & Hb & _).
  rewrite Ht, Hb. to_Q. repeat split; lra.
Qed.

Lemma generatePipe_in_canvas_half :
  (0 <= 1 # 2 /\ (1 # 2) < 1)
  /\ (50 <= Pipe.topHeight (generatePipe (1 # 2))
      /\ Pipe.topHeight (generatePipe (1 # 2))
         < CANVAS_HEIGHT - PIPE_GAP - 50)
  /\ Pipe.bottomY (generatePipe (1 # 2)) <= CANVAS_HEIGHT - 50
  /\ 50 <= CANVAS_HEIGHT - Pipe.bottomY (generatePipe (1 # 2))
  /\ (0 < Pipe.topHeight (generatePipe (1 # 2))
      /\ Pipe.topHeight (generatePipe (1 # 2))
         < Pipe.bottomY (generatePipe (1 # 2))
      /\ Pipe.bottomY (generatePipe (1 # 2)) < CANVAS_HEIGHT).
Proof.
  split; [split; lra|].
  apply (generatePipe_in_canvas (1 # 2)); lra.
Defined.

End ExactGeometry.

(** ** The exact reading: collision *)

Section ExactCollision.
Local Open Scope Q_scope.

Lemma overlap_iff (a c wa wc : Q) :
  0 < wa -> 0 < wc ->
  overlap a (a + wa) c (c + wc) <-> a < c + wc /\ c < a + wa.
Proof.
  intros Ha Hc. split.
  - intros (z & (Haz & Hza) & (Hcz & Hzc)). split; lra.
  - intros [Hac Hca]. destruct (Qlt_le_dec a c) as [Hlt | Hle].
    + exists c. repeat split; lra.
    + exists a. repeat split; lra.
Qed.

Lemma hitsPipe_iff (b : Bird.t Q) (p : Pipe.t Q) :
  hitsPipe b p = true <->
  overlap (Pipe.x p) (Pipe.x p + PIPE_WIDTH) (Bird.x b) (Bird.x b + BIRD_SIZE)
  /\ (Bird.y b < Pipe.topHeight p \/ Pipe.bottomY p < Bird.y b + BIRD_SIZE).
Proof.
  unfold hitsPipe.
  rewrite !andb_true_iff, orb_true_iff, !ltb_lt.
  rewrite overlap_iff by (to_Q; lra).
  tauto.
Qed.

Lemma checkCollision_iff (b : Bird.t Q) (ps : list (Pipe.t Q)) :
  checkCollision b ps = true <->
  Bird.y b <= 0
  \/ CANVAS_HEIGHT - BIRD_SIZE <= Bird.y b
  \/ exists p, In p ps /\ hitsPipe b p = true.
Proof.
  unfold checkCollision.
  destruct ((Bird.y b <=? num_lit 0)%js
            || (Bird.y b >=? CANVAS_HEIGHT - BIRD_SIZE)%js)%bool eqn:Hedge.
  - apply orb_true_iff in Hedge. rewrite !leb_le in Hedge.
    split; [intros _ | reflexivity]. tauto.
  - apply orb_false_iff in Hedge. rewrite !leb_gt in Hedge.
    rewrite existsb_exists. split.
    + intros Hp. right; right; exact Hp.
    + intros [Hy | [Hy | Hp]]; [| | exact Hp].
      * exfalso. destruct Hedge as [H0 _]. to_Q. lra.
      * exfalso. destruct Hedge as [_ H1].
        apply (Qlt_not_le _ _ H1). exact Hy.
Qed.

(** C3: [checkCollision] answers true exactly when the bird is at or
    above the ceiling, at or below the ground line, or some pipe overlaps
    the bird horizontally (as half-open intervals) while the bird is not
    inside its gap.  In particular a bird at y = -1 collides whatever the
    pipes are, and a bird away from ceiling and ground that is inside the
    gap of every pipe overlapping it does not collide. *)
Theorem checkCollision_spec (b : Bird.t Q) (ps : list (Pipe.t Q)) :
  (checkCollision b ps = true <->
     Bird.y b <= 0
     \/ CANVAS_HEIGHT - BIRD_SIZE <= Bird.y b
     \/ exists p, In p ps
          /\ overlap (Pipe.x p) (Pipe.x p + PIPE_WIDTH)
                     (Bird.x b) (Bird.x b + BIRD_SIZE)
          /\ (Bird.y b < Pipe.topHeight p
              \/ Pipe.bottomY p < Bird.y b + BIRD_SIZE))
  /\ (Bird.y b == -1 -> checkCollision b ps = true)
  /\ (0 < Bird.y b -> Bird.y b < CANVAS_HEIGHT - BIRD_SIZE ->
      (forall p, In p ps ->
         overlap (Pipe.x p) (Pipe.x p + PIPE_WIDTH)
                 (Bird.x b) (Bird.x b + BIRD_SIZE) ->
         Pipe.topHeight p <= Bird.y b
         /\ Bird.y b + BIRD_SIZE <= Pipe.bottomY p) ->
      checkCollision b ps = false).
Proof.
  assert (Hiff : checkCollision b ps = true <->
     Bird.y b <= 0
     \/ CANVAS_HEIGHT - BIRD_SIZE <= Bird.y b
     \/ exists p, In p ps
          /\ overlap (Pipe.x p) (Pipe.x p + PIPE_WIDTH)
                     (Bird.x b) (Bird.x b + BIRD_SIZE)
          /\ (Bird.y b < Pipe.topHeight p
              \/ Pipe.bottomY p < Bird.y b + BIRD_SIZE)).
  { rewrite checkCollision_iff. split.
    - intros [Hy | [Hy | (p & Hin & Hp)]]; [tauto | tauto |].
      apply hitsPipe_iff in Hp. right; right; exists p; tauto.
    - intros [Hy | [Hy | (p & Hin & Hp)]]; [tauto | tauto |].
      right; right; exists p. rewrite hitsPipe_iff. tauto. }
  split; [exact Hiff|]. split.
  - intros Hy. apply Hiff. left. rewrite Hy. lra.
  - intros H0 H1 Hgap. apply not_true_iff_false. rewrite Hiff.
    intros [Hy | [Hy | (p & Hin & Hov & Hout)]].
    + lra.
    + apply (Qlt_not_le _ _ H1). exact Hy.
    + destruct (Hgap p Hin Hov) as [Ht Hb]. destruct Hout; lra.
Qed.

Example ceiling_collides :
  checkCollision (Bird.mk 100 (-1) 0)
    [Pipe.mk 90 100 250 false; Pipe.mk 292 50 200 false] = true.
Proof. reflexivity. Qed.

Example inside_gap_is_clear :
  checkCollision (Bird.mk 100 150 0)
    [Pipe.mk 90 100 250 false; Pipe.mk 292 300 450 false] = false.
Proof. reflexivity. Qed.

Example outside_gap_collides :
  checkCollision (Bird.mk 100 240 0)
    [Pipe.mk 90 100 250 false; Pipe.mk 292 300 450 false] = true.
Proof. reflexivity. Qed.

End ExactCollision.

(** ** The exact reading: the pipes of a frame *)

Section ExactPipes.
Local Open Scope Q_scope.

Lemma lastPipe_snoc (ps : list (Pipe.t Q)) (p : Pipe.t Q) :
  lastPipe (ps ++ [p]) = Some p.
Proof.
  induction ps as [|q rest IH]; [reflexivity|].
  cbn [app lastPipe]. rewrite IH.
  destruct (rest ++ [p]) eqn:E; [|reflexivity].
  destruct rest; discriminate E.
Qed.

Lemma lastPipe_rev (ps : list (Pipe.t Q)) :
  lastPipe ps = hd_error (rev ps).
Proof.
  rewrite <- (rev_involutive ps) at 1.
  destruct (rev ps) as [|p rest]; [reflexivity|].
  cbn [rev]. apply lastPipe_snoc.
Qed.

Lemma lastPipe_In (ps : list (Pipe.t Q)) (p : Pipe.t Q) :
  lastPipe ps = Some p -> In p ps.
Proof.
  rewrite lastPipe_rev. intros Hp. apply in_rev.
  destruct (rev ps) as [|q rest]; [discriminate Hp|].
  injection Hp as ->. left; reflexivity.
Qed.

Lemma needsPipe_spawnDue (ps : list (Pipe.t Q)) :
  needsPipe ps = spawnDue ps.
Proof.
  unfold needsPipe, spawnDue. rewrite lastPipe_rev.
  destruct (rev ps); reflexivity.
Qed.

Lemma onScreen_offLeft (p : Pipe.t Q) : onScreen p = negb (offLeft p).
Proof.
  unfold onScreen, offLeft.
  destruct (Qle_bool (Pipe.x p) (- PIPE_WIDTH)) eqn:E; cbn [negb].
  - apply ltb_ge. apply Qle_bool_iff. exact E.
  - apply ltb_lt. apply leb_gt. exact E.
Qed.

Lemma pipesBeforeScoring_spec (random : Q) (g : State Q) :
  pipesBeforeScoring random g = specPipes random (pipes g).
Proof.
  unfold pipesBeforeScoring, specPipes, addPipe.
  change (advanced (pipes g)) with (map movePipe (pipes g)).
  rewrite (filter_ext _ _ onScreen_offLeft).
  rewrite needsPipe_spawnDue.
  destruct (spawnDue _); [reflexivity | symmetry; apply app_nil_r].
Qed.

Lemma markPassed_sameGeometry (bx : Q) (ps : list (Pipe.t Q)) :
  Forall2 sameGeometry ps (map (markPassed bx) ps).
Proof.
  induction ps as [|p rest IH]; constructor; [|exact IH].
  repeat split.
Qed.

(** C5: in a frame of the Playing state the pipes are, in this order,
    moved left by PIPE_SPEED, freed of those with x <= -PIPE_WIDTH, and
    extended by one generated pipe (x = CANVAS_WIDTH, not passed) exactly
    when none is left or the rightmost has x < CANVAS_WIDTH - 200; the
    scoring loop that follows changes [passed] flags only. *)
Theorem frame_pipes (random : Q) (g : State Q) :
  gameState g = playing ->
  pipesBeforeScoring random g = specPipes random (pipes g)
  /\ Forall2 sameGeometry (specPipes random (pipes g))
                          (pipes (gameLoop random g))
  /\ Pipe.x (generatePipe random) = CANVAS_WIDTH
  /\ Pipe.passed (generatePipe random) = false.
Proof.
  intros Hp. split; [apply pipesBeforeScoring_spec|]. split; [|split].
  - rewrite (gameLoop_playing random g Hp). cbn [pipes].
    unfold nextPipes. rewrite pipesBeforeScoring_spec.
    apply markPassed_sameGeometry.
  - reflexivity.
  - reflexivity.
Qed.

Lemma frame_pipes_after_hover :
  gameState (run hover initial) = playing
  /\ pipesBeforeScoring (3 # 8) (run hover initial)
     = specPipes (3 # 8) (pipes (run hover initial))
  /\ Forall2 sameGeometry (specPipes (3 # 8) (pipes (run hover initial)))
                          (pipes (gameLoop (3 # 8) (run hover initial)))
  /\ Pipe.x (generatePipe (3 # 8)) = CANVAS_WIDTH
  /\ Pipe.passed (generatePipe (3 # 8)) = false.
Proof.
  split; [vm_compute; reflexivity|].
  apply (frame_pipes (3 # 8) (run hover initial)). vm_compute; reflexivity.
Defined.

Example specPipes_drops_and_spawns :
  map Pipe.x
    (specPipes 0 [Pipe.mk (-58) 60 210 true; Pipe.mk 144 90 240 false])
  = [144 - 2; 400].
Proof. reflexivity. Qed.

Example specPipes_keeps :
  map Pipe.x
    (specPipes 0 [Pipe.mk 20 60 210 true; Pipe.mk 222 90 240 false])
  = [20 - 2; 222 - 2].
Proof. reflexivity. Qed.

End ExactPipes.

(** ** Sorted sequences *)

Section SortedLists.
Context {A : Type} (R : A -> A -> Prop).

Lemma StronglySorted_map_mono (f : A -> A) (l : list A) :
  (forall a b, R a b -> R (f a) (f b)) ->
  StronglySorted R l -> StronglySorted R (map f l).
Proof.
  intros Hf Hl. induction Hl as [|a l Hl IH Ha]; cbn [map]; constructor.
  - exact IH.
  - apply Forall_map. revert Ha. apply Forall_impl. intros b. apply Hf.
Qed.

Lemma StronglySorted_filter_keeps (f : A -> bool) (l : list A) :
  StronglySorted R l -> StronglySorted R (filter f l).
Proof.
  intros Hl. induction Hl as [|a l Hl IH Ha]; cbn [filter]; [constructor|].
  destruct (f a); [|exact IH].
  constructor; [exact IH|].
  apply Forall_forall. intros b Hb. apply filter_In in Hb as [Hb _].
  revert b Hb. apply Forall_forall. exact Ha.
Qed.

Lemma StronglySorted_snoc (l : list A) (z : A) :
  StronglySorted R l -> Forall (fun a => R a z) l ->
  StronglySorted R (l ++ [z]).
Proof.
  intros Hl Hz. induction Hl as [|a l Hl IH Ha]; cbn [app].
  - constructor; constructor.
  - inversion Hz as [|a' l' Haz Hlz]; subst.
    constructor; [apply IH; exact Hlz|].
    apply Forall_app. split; [exact Ha|].
    constructor; [exact Haz | constructor].
Qed.

Lemma StronglySorted_compare (l : list A) (a b : A) :
  StronglySorted R l -> In a l -> In b l -> a = b \/ R a b \/ R b a.
Proof.
  intros Hl. induction Hl as [|c l Hl IH Hc]; intros Ha Hb; [destruct Ha|].
  rewrite Forall_forall in Hc.
  destruct Ha as [-> | Ha], Hb as [-> | Hb].
  - left; reflexivity.
  - right; left. apply Hc; exact Hb.
  - right; right. apply Hc; exact Ha.
  - apply IH; assumption.
Qed.

End SortedLists.

(** ** The exact reading: what holds while the game is played *)

Section ExactInvariant.
Local Open Scope Q_scope.

Lemma In_pipesBeforeScoring (random : Q) (g : State Q) (q : Pipe.t Q) :
  In q (pipesBeforeScoring random g) ->
  q = generatePipe random
  \/ exists p, In p (pipes g) /\ q = movePipe p /\ -60 < Pipe.x p - 2.
Proof.
  unfold pipesBeforeScoring, addPipe. intros Hq.
  assert (Hkept : In q (filter onScreen (map movePipe (pipes g))) ->
                  exists p, In p (pipes g) /\ q = movePipe p
                            /\ -60 < Pipe.x p - 2).
  { intros Hin. apply filter_In in Hin as [Hin Hon].
    apply in_map_iff in Hin as (p & <- & Hp).
    exists p. repeat split; [exact Hp|].
    unfold onScreen, movePipe in Hon; cbn [Pipe.x] in Hon.
    to_order. to_Q. lra. }
  destruct (needsPipe _); [|right; auto].
  apply in_app_or in Hq as [Hq | [<- | []]]; [right; auto | left; reflexivity].
Qed.

Lemma In_nextPipes (random : Q) (g : State Q) (q' : Pipe.t Q) :
  In q' (nextPipes random g) ->
  exists q, In q (pipesBeforeScoring random g)
            /\ q' = markPassed (Bird.x (bird g)) q.
Proof.
  unfold nextPipes. intros Hq. apply in_map_iff in Hq as (q & <- & Hq).
  exists q; split; [exact Hq | reflexivity].
Qed.

Lemma clear_facts (b : Bird.t Q) (ps : list (Pipe.t Q)) :
  checkCollision b ps = false <->
  0 < Bird.y b /\ Bird.y b < 580
  /\ forall p, In p ps -> hitsPipe b p = false.
Proof.
  rewrite <- not_true_iff_false, checkCollision_iff. to_Q. split.
  - intros Hn. repeat split.
    + apply Qnot_le_lt. intros Hy. apply Hn. left; exact Hy.
    + apply Qnot_le_lt. intros Hy. apply Hn. right; left. lra.
    + intros p Hp. apply not_true_iff_false. intros Hh.
      apply Hn. right; right. exists p; split; assumption.
  - intros (H0 & H1 & Hps) [Hy | [Hy | (p & Hp & Hh)]]; [lra | lra |].
    rewrite (Hps p Hp) in Hh. discriminate Hh.
Qed.

Lemma hitsPipe_false_gap (b : Bird.t Q) (p : Pipe.t Q) :
  hitsPipe b p = false ->
  Pipe.x p < Bird.x b + 20 -> Bird.x b < Pipe.x p + 60 ->
  Pipe.topHeight p <= Bird.y b /\ Bird.y b + 20 <= Pipe.bottomY p.
Proof.
  intros Hh H1 H2.
  destruct (Qlt_le_dec (Bird.y b) (Pipe.topHeight p)) as [Ht | Ht];
    [|destruct (Qlt_le_dec (Pipe.bottomY p) (Bird.y b + 20)) as [Hb | Hb]];
    [exfalso | exfalso | split; assumption].
  - apply not_true_iff_false in Hh. apply Hh. apply hitsPipe_iff.
    split; [apply overlap_iff; to_Q; lra | left; exact Ht].
  - apply not_true_iff_false in Hh. apply Hh. apply hitsPipe_iff.
    split; [apply overlap_iff; to_Q; lra | right; to_Q; exact Hb].
Qed.

Lemma hitsPipe_apart (b : Bird.t Q) (p : Pipe.t Q) :
  Bird.x b + 20 <= Pipe.x p \/ Pipe.x p + 60 <= Bird.x b ->
  hitsPipe b p = false.
Proof.
  intros Hx. apply not_true_iff_false. rewrite hitsPipe_iff.
  rewrite overlap_iff by (to_Q; lra). to_Q. lra.
Qed.

Lemma lastPipe_None (ps : list (Pipe.t Q)) : lastPipe ps = None -> ps = [].
Proof.
  rewrite lastPipe_rev. intros Hn.
  rewrite <- (rev_involutive ps).
  destruct (rev ps); [reflexivity | discriminate Hn].
Qed.

Lemma lastPipe_rightmost (ps : list (Pipe.t Q)) (z : Pipe.t Q) :
  StronglySorted spaced ps -> lastPipe ps = Some z ->
  forall p, In p ps -> Pipe.x p <= Pipe.x z.
Proof.
  intros Hs Hz p Hp.
  destruct (StronglySorted_compare spaced ps p z Hs Hp (lastPipe_In _ _ Hz))
    as [-> | [Hpz | Hzp]]; [lra | unfold spaced in Hpz; lra |].
  exfalso. revert z Hz p Hp Hzp.
  induction Hs as [|a l Hl IH Ha]; intros z Hz p Hp Hzp; [destruct Hp|].
  rewrite Forall_forall in Ha.
  destruct l as [|c l'].
  - cbn in Hz. injection Hz as <-. destruct Hp as [<- | []].
    unfold spaced in Hzp; lra.
  - change (lastPipe (a :: c :: l')) with (lastPipe (c :: l')) in Hz.
    destruct Hp as [<- | Hp].
    + specialize (Ha z (lastPipe_In _ _ Hz)). unfold spaced in *; lra.
    + exact (IH z Hz p Hp Hzp).
Qed.

Lemma spaced_movePipe (p q : Pipe.t Q) :
  spaced p q -> spaced (movePipe p) (movePipe q).
Proof. unfold spaced, movePipe; cbn [Pipe.x]. to_Q. lra. Qed.

Lemma spaced_markPassed (bx : Q) (p q : Pipe.t Q) :
  spaced p q -> spaced (markPassed bx p) (markPassed bx q).
Proof. intros Hs; exact Hs. Qed.

Lemma spaced_nextPipes (random : Q) (g : State Q) :
  StronglySorted spaced (pipes g) ->
  StronglySorted spaced (nextPipes random g).
Proof.
  intros Hs. unfold nextPipes, pipesBeforeScoring.
  apply StronglySorted_map_mono; [apply spaced_markPassed|].
  assert (Hkept : StronglySorted spaced
                    (filter onScreen (map movePipe (pipes g)))).
  { apply StronglySorted_filter_keeps.
    apply StronglySorted_map_mono; [apply spaced_movePipe | exact Hs]. }
  unfold addPipe, needsPipe.
  destruct (lastPipe _) as [z|] eqn:Hz.
  - destruct (Pipe.x z <? CANVAS_WIDTH - num_lit 200)%js eqn:Hlt;
      [|exact Hkept].
    apply StronglySorted_snoc; [exact Hkept|].
    apply Forall_forall. intros p Hp.
    pose proof (lastPipe_rightmost _ z Hkept Hz p Hp) as Hle.
    unfold spaced, generatePipe; cbn [Pipe.x]. to_order. to_Q. lra.
  - apply lastPipe_None in Hz. rewrite Hz. repeat constructor.
Qed.

End ExactInvariant.

Section ExactAlive.
Local Open Scope Q_scope.

Lemma markPassed_unpassed (bx : Q) (q : Pipe.t Q) :
  Pipe.passed (markPassed bx q) = false ->
  Pipe.passed q = false /\ bx <= Pipe.x q + 60.
Proof.
  unfold markPassed, crosses; cbn [Pipe.passed]. intros Hm.
  apply orb_false_iff in Hm as [Hp Hc]. rewrite Hp in Hc. cbn [negb andb] in Hc.
  split; [exact Hp|]. to_order. to_Q. exact Hc.
Qed.

Lemma pipeOK_nextPipes (random : Q) (g : State Q) :
  unitDraw random = true -> Bird.x (bird g) == 100 ->
  Forall pipeOK (pipes g) -> Forall pipeOK (nextPipes random g).
Proof.
  intros Hr Hx Hps. apply Forall_forall. intros q' Hq'.
  apply In_nextPipes in Hq' as (q & Hq & ->).
  assert (Hq_ok : 50 <= Pipe.topHeight q /\ Pipe.bottomY q <= 550).
  { apply In_pipesBeforeScoring in Hq as [-> | (p & Hp & -> & _)].
    - apply unitDraw_bounds in Hr as [H0 H1].
      destruct (generatePipe_fields random) as (_ & Ht & Hb & _).
      rewrite Ht, Hb. lra.
    - rewrite Forall_forall in Hps. destruct (Hps p Hp) as (Ht & Hb & _).
      split; assumption. }
  destruct Hq_ok as [Ht Hb]. repeat split; [exact Ht | exact Hb |].
  intros Hun. apply markPassed_unpassed in Hun as [_ Hun].
  change (Pipe.x (markPassed (Bird.x (bird g)) q)) with (Pipe.x q). lra.
Qed.

Lemma energy_step (y v : Q) :
  v * v + (1 # 2) * v - 60 < y ->
  (v + (1 # 2)) * (v + (1 # 2)) + (1 # 2) * (v + (1 # 2)) - 60
  < y + v + (1 # 2).
Proof. intros He. nra. Qed.

Lemma exit_margin (y v : Q) :
  v * v + (1 # 2) * v - 60 < y -> y <= 530 ->
  y + v + (1 # 2) + (v + (1 # 2)) + (1 # 2) < 580.
Proof. intros He Hy. nra. Qed.

(** A frame that does not end the game keeps [Alive]. *)
Lemma Alive_frame (random : Q) (g : State Q) :
  unitDraw random = true -> gameState g = playing -> Alive g ->
  gameState (gameLoop random g) = playing ->
  Alive (gameLoop random g).
Proof.
  intros Hr Hp [Hx Hclear Hv He Hps Hsp Hex] Hnext.
  rewrite (gameLoop_playing random g Hp) in *. cbn zeta in *.
  destruct (checkCollision (fall (bird g)) (nextPipes random g)) eqn:Hhit;
    [discriminate Hnext|].
  apply clear_facts in Hclear as (Hy0 & Hy1 & Hmiss).
  constructor; cbn [bird pipes fall Bird.x Bird.y Bird.velocity].
  - exact Hx.
  - exact Hhit.
  - to_Q. lra.
  - to_Q. apply energy_step. exact He.
  - apply pipeOK_nextPipes; assumption.
  - apply spaced_nextPipes. exact Hsp.
  - intros q' Hq' Hun Hnear.
    apply In_nextPipes in Hq' as (q & Hq & ->).
    apply markPassed_unpassed in Hun as [Hun Hedge].
    change (Pipe.x (markPassed (Bird.x (bird g)) q)) with (Pipe.x q) in Hnear.
    apply In_pipesBeforeScoring in Hq as [-> | (p & Hin & -> & _)].
    + exfalso. destruct (generatePipe_fields random) as (Hgx & _).
      rewrite Hgx in Hnear. lra.
    + unfold movePipe in Hun, Hedge, Hnear;
        cbn [Pipe.x Pipe.passed] in Hun, Hedge, Hnear.
      to_Q.
      destruct (hitsPipe_false_gap (bird g) p (Hmiss p Hin)) as [Ht Hb];
        [lra | lra |].
      rewrite Forall_forall in Hps. destruct (Hps p Hin) as (Ht' & Hb' & _).
      split; [apply exit_margin; [exact He | lra] | lra].
Qed.

(** An impulse during play keeps [Alive]. *)
Lemma Alive_jump (g : State Q) :
  gameState g = playing -> Alive g -> Alive (jump g).
Proof.
  intros Hp [Hx Hclear Hv He Hps Hsp Hex].
  unfold jump. rewrite Hp.
  pose proof (proj1 (clear_facts _ _) Hclear) as (Hy0 & Hy1 & Hmiss).
  constructor; cbn [bird pipes Bird.x Bird.y Bird.velocity].
  - exact Hx.
  - exact Hclear.
  - to_Q. lra.
  - to_Q. lra.
  - exact Hps.
  - exact Hsp.
  - intros p Hin Hun Hnear. destruct (Hex p Hin Hun Hnear) as [_ H8].
    to_Q. split; lra.
Qed.

Lemma Alive_initGame (g : State Q) : Alive (initGame g).
Proof.
  constructor; cbn [initGame bird pipes startBird Bird.x Bird.y Bird.velocity].
  - reflexivity.
  - reflexivity.
  - to_Q. lra.
  - to_Q. lra.
  - constructor.
  - constructor.
  - intros p [].
Qed.

Lemma invariant_step (e : Event Q) (g : State Q) :
  validEvent e = true -> invariant g -> invariant (step e g).
Proof.
  intros He Hg. unfold invariant in *. destruct e as [random|]; unfold step.
  - destruct (gameState g) eqn:Hs.
    + rewrite gameLoop_idle by congruence. rewrite Hs. discriminate.
    + intros Hnext. apply Alive_frame; auto.
    + rewrite gameLoop_idle by congruence. rewrite Hs. discriminate.
  - intros _. destruct (gameState g) eqn:Hs.
    + unfold jump. rewrite Hs. apply Alive_initGame.
    + apply Alive_jump; auto.
    + unfold jump. rewrite Hs. apply Alive_initGame.
Qed.

Lemma reachable_invariant (g : State Q) : reachable g -> invariant g.
Proof.
  intros Hg. induction Hg as [|e g He Hg IH].
  - intros Hm. discriminate Hm.
  - apply invariant_step; assumption.
Qed.

End ExactAlive.

(** ** The exact reading: scoring and the end of a game *)

Section ExactScoring.
Local Open Scope Q_scope.

Lemma filter_nonempty {A : Type} (f : A -> bool) (l : list A) :
  (0 < length (filter f l))%nat -> exists a, In a l /\ f a = true.
Proof.
  destruct (filter f l) as [|a rest] eqn:E; cbn [length]; [lia|].
  intros _. exists a. apply filter_In. rewrite E. left; reflexivity.
Qed.

Lemma generatePipe_not_crossing (random bx : Q) :
  bx == 100 -> crosses bx (generatePipe random) = false.
Proof.
  intros Hx. unfold crosses, generatePipe; cbn [Pipe.passed Pipe.x negb andb].
  apply ltb_ge. to_Q. lra.
Qed.

(** A frame that scores does not end the game: the pipe that is passed
    was cleared two frames earlier, and the next pipe is still far. *)
Lemma scoring_frame_is_clear (random : Q) (g : State Q) :
  Alive g -> (0 < gained random g)%nat ->
  checkCollision (fall (bird g)) (nextPipes random g) = false.
Proof.
  intros [Hx Hclear Hv He Hps Hsp Hex] Hgain.
  apply filter_nonempty in Hgain as (q & Hq & Hcross).
  apply In_pipesBeforeScoring in Hq as [-> | (p & Hin & -> & _)].
  { rewrite generatePipe_not_crossing in Hcross by exact Hx.
    discriminate Hcross. }
  unfold crosses, movePipe in Hcross; cbn [Pipe.x Pipe.passed] in Hcross.
  apply andb_true_iff in Hcross as [Hun Hedge].
  apply negb_true_iff in Hun. apply ltb_lt in Hedge.
  rewrite Forall_forall in Hps. destruct (Hps p Hin) as (_ & _ & H40).
  specialize (H40 Hun). to_Q.
  destruct (Hex p Hin Hun) as [Hfall H8]; [lra|].
  apply clear_facts. cbn [fall Bird.x Bird.y]. to_Q.
  split; [lra|]. split; [lra|].
  intros q' Hq'. apply In_nextPipes in Hq' as (q & Hq & ->).
  change (hitsPipe (fall (bird g)) (markPassed (Bird.x (bird g)) q))
    with (hitsPipe (fall (bird g)) q).
  apply hitsPipe_apart. cbn [fall Bird.x].
  apply In_pipesBeforeScoring in Hq as [-> | (p2 & Hin2 & -> & _)].
  - left. destruct (generatePipe_fields random) as (Hgx & _).
    rewrite Hgx. lra.
  - unfold movePipe; cbn [Pipe.x]. to_Q.
    destruct (StronglySorted_compare spaced _ p p2 Hsp Hin Hin2)
      as [<- | [Hs | Hs]]; unfold spaced in *; [right | left | right]; lra.
Qed.

Lemma collision_frame_gains_nothing (random : Q) (g : State Q) :
  reachable g -> gameState g = playing ->
  checkCollision (fall (bird g)) (nextPipes random g) = true ->
  gained random g = 0%nat.
Proof.
  intros Hreach Hp Hhit.
  pose proof (reachable_invariant g Hreach Hp) as Halive.
  destruct (gained random g) as [|n] eqn:Hn; [reflexivity|].
  rewrite scoring_frame_is_clear in Hhit; [discriminate Hhit | exact Halive |].
  rewrite Hn. lia.
Qed.

(** On the reachable states no frame both scores and ends the game, so
    there the high score set by a collision is also the larger of the old
    high score and the score as it stands after the frame. *)
Lemma collision_sets_highScore (random : Q) (g : State Q) :
  reachable g -> gameState g = playing ->
  checkCollision (bird (gameLoop random g)) (pipes (gameLoop random g))
  = true ->
  gameState (gameLoop random g) = gameOver
  /\ highScore (gameLoop random g)
     = Z.max (highScore g) (score (gameLoop random g)).
Proof.
  intros Hreach Hp.
  rewrite (gameLoop_playing random g Hp).
  cbn [bird pipes score gameState highScore].
  intros Hhit. rewrite Hhit. split; [reflexivity|].
  rewrite (collision_frame_gains_nothing random g Hreach Hp Hhit).
  rewrite Z.add_0_r. reflexivity.
Qed.

End ExactScoring.

Section ExactSession.
Local Open Scope Q_scope.

Lemma collision_sets_highScore_after_hover :
  reachable (run hoverThenFall initial)
  /\ gameState (run hoverThenFall initial) = playing
  /\ checkCollision (bird (gameLoop (3 # 8) (run hoverThenFall initial)))
                    (pipes (gameLoop (3 # 8) (run hoverThenFall initial)))
     = true
  /\ gameState (gameLoop (3 # 8) (run hoverThenFall initial)) = gameOver
  /\ highScore (gameLoop (3 # 8) (run hoverThenFall initial))
     = Z.max (highScore (run hoverThenFall initial))
             (score (gameLoop (3 # 8) (run hoverThenFall initial))).
Proof.
  assert (Hreach : reachable (run hoverThenFall initial)).
  { apply reachable_run; [vm_compute; reflexivity | constructor]. }
  split; [exact Hreach|].
  split; [vm_compute; reflexivity|].
  split; [vm_compute; reflexivity|].
  apply (collision_sets_highScore (3 # 8) (run hoverThenFall initial) Hreach).
  - vm_compute; reflexivity.
  - vm_compute; reflexivity.
Defined.

Lemma crossing_stays_on (g : State Q) (p : Pipe.t Q) :
  pipeOK p -> crossesNow g p = true -> staysOn p = true.
Proof.
  intros (_ & _ & H40) Hc. unfold crossesNow in Hc.
  apply andb_true_iff in Hc as [Hun _]. apply negb_true_iff in Hun.
  specialize (H40 Hun).
  unfold staysOn, onScreen, movePipe; cbn [Pipe.x].
  apply ltb_lt. to_Q. lra.
Qed.

Lemma gained_counts (random : Q) (g : State Q) :
  Alive g ->
  gained random g = length (filter (crossesNow g) (pipes g)).
Proof.
  intros [Hx _ _ _ Hps _ _]. unfold gained, pipesBeforeScoring, addPipe.
  assert (Hkept :
    length (filter (crosses (Bird.x (bird g)))
                   (filter onScreen (map movePipe (pipes g))))
    = length (filter (crossesNow g) (pipes g))).
  { induction Hps as [|p ps Hp Hps IH]; [reflexivity|].
    cbn [map filter].
    change (crosses (Bird.x (bird g)) (movePipe p)) with (crossesNow g p).
    destruct (crossesNow g p) eqn:Hc.
    - change (onScreen (movePipe p)) with (staysOn p).
      rewrite (crossing_stays_on g p Hp Hc). cbn [filter].
      change (crosses (Bird.x (bird g)) (movePipe p)) with (crossesNow g p).
      rewrite Hc. cbn [length]. rewrite IH. reflexivity.
    - destruct (onScreen (movePipe p)); [|exact IH].
      cbn [filter].
      change (crosses (Bird.x (bird g)) (movePipe p)) with (crossesNow g p).
      rewrite Hc. exact IH. }
  destruct (needsPipe _); [|exact Hkept].
  rewrite filter_app, length_app, Hkept. cbn [filter].
  rewrite generatePipe_not_crossing by exact Hx. cbn [length]. lia.
Qed.

Lemma nextPipes_scored (random : Q) (g : State Q) :
  Bird.x (bird g) == 100 ->
  exists fresh,
    (fresh = [] \/ fresh = [generatePipe random])
    /\ nextPipes random g
       = map (scored g) (filter staysOn (pipes g)) ++ fresh.
Proof.
  intros Hx. unfold nextPipes, pipesBeforeScoring, addPipe.
  assert (Hkept :
    map (markPassed (Bird.x (bird g)))
        (filter onScreen (map movePipe (pipes g)))
    = map (scored g) (filter staysOn (pipes g))).
  { rewrite filter_map_swap, map_map. reflexivity. }
  destruct (needsPipe _).
  - exists [generatePipe random]. split; [right; reflexivity|].
    rewrite map_app, Hkept. cbn [map]. unfold markPassed.
    rewrite generatePipe_not_crossing by exact Hx. reflexivity.
  - exists []. split; [left; reflexivity|].
    rewrite Hkept. symmetry; apply app_nil_r.
Qed.

(** On the reachable states every unmarked pipe whose right edge is left
    of the bird is still on screen, and the appended pipe is never
    counted: there a frame adds exactly one point for each pipe that is
    not yet marked passed and whose right edge, after the move, is
    strictly left of the bird's x, and the pipes after the frame are the
    pipes still on screen, each moved and marked passed if it was already
    marked or was counted now, followed by the generated pipe if one is
    due. *)
Lemma score_counts_crossings (random : Q) (g : State Q) :
  reachable g -> gameState g = playing ->
  (forall events, sameSession events g ->
                  (score g <= score (run events g))%Z)
  /\ score (gameLoop random g)
     = (score g + Z.of_nat (length (filter (crossesNow g) (pipes g))))%Z
  /\ (forall p, In p (pipes g) -> crossesNow g p = true ->
                Pipe.passed p = false
                /\ In (scored g p) (pipes (gameLoop random g))
                /\ Pipe.passed (scored g p) = true)
  /\ exists fresh,
       (fresh = [] \/ fresh = [generatePipe random])
       /\ pipes (gameLoop random g)
          = map (scored g) (filter staysOn (pipes g)) ++ fresh.
Proof.
  intros Hreach Hp. pose proof (reachable_invariant g Hreach Hp) as Halive.
  destruct (nextPipes_scored random g (alive_x g Halive))
    as (fresh & Hfresh & Hnext).
  rewrite (gameLoop_playing random g Hp). cbn [score pipes].
  split; [intros events; apply score_session|].
  split; [rewrite (gained_counts random g Halive); reflexivity|].
  split.
  - intros p Hin Hc. split; [|split].
    + unfold crossesNow in Hc. apply andb_true_iff in Hc as [Hun _].
      apply negb_true_iff in Hun. exact Hun.
    + rewrite Hnext. apply in_or_app. left. apply in_map.
      apply filter_In. split; [exact Hin|].
      apply (crossing_stays_on g p); [|exact Hc].
      pose proof (alive_pipes g Halive) as Hps.
      rewrite Forall_forall in Hps. apply Hps. exact Hin.
    + unfold scored; cbn [Pipe.passed]. rewrite Hc. apply orb_true_r.
  - exists fresh. split; [exact Hfresh | exact Hnext].
Qed.

Lemma score_counts_crossings_hover :
  reachable (run hover initial)
  /\ gameState (run hover initial) = playing
  /\ (forall events, sameSession events (run hover initial) ->
        (score (run hover initial)
         <= score (run events (run hover initial)))%Z)
  /\ score (gameLoop (3 # 8) (run hover initial))
     = (score (run hover initial)
        + Z.of_nat (length (filter (crossesNow (run hover initial))
                                   (pipes (run hover initial)))))%Z
  /\ (forall p, In p (pipes (run hover initial)) ->
        crossesNow (run hover initial) p = true ->
        Pipe.passed p = false
        /\ In (scored (run hover initial) p)
              (pipes (gameLoop (3 # 8) (run hover initial)))
        /\ Pipe.passed (scored (run hover initial) p) = true)
  /\ exists fresh,
       (fresh = [] \/ fresh = [generatePipe (3 # 8)])
       /\ pipes (gameLoop (3 # 8) (run hover initial))
          = map (scored (run hover initial))
                (filter staysOn (pipes (run hover initial))) ++ fresh.
Proof.
  assert (Hreach : reachable (run hover initial)).
  { apply reachable_run; [vm_compute; reflexivity | constructor]. }
  split; [exact Hreach|]. split; [vm_compute; reflexivity|].
  apply (score_counts_crossings (3 # 8) (run hover initial) Hreach).
  vm_compute; reflexivity.
Defined.

(** The frame after [hover] passes the first pipe: one point, the pipe
    marked, the game still on. *)
Example hover_scores :
  length (filter (crossesNow (run hover initial)) (pipes (run hover initial)))
  = 1%nat
  /\ score (run hover initial) = 0%Z
  /\ score (gameLoop (3 # 8) (run hover initial)) = 1%Z
  /\ map Pipe.passed (pipes (gameLoop (3 # 8) (run hover initial)))
     = [true; false]
  /\ gameState (gameLoop (3 # 8) (run hover initial)) = playing.
Proof. vm_compute. repeat split. Qed.

(** Left alone after [hover], the bird reaches the ground on the 27th
    frame: the game ends with score 1 and high score 1. *)
Example hover_then_fall :
  highScore (run hoverThenFall initial) = 0%Z
  /\ score (run hoverThenFall initial) = 1%Z
  /\ gameState (gameLoop (3 # 8) (run hoverThenFall initial)) = gameOver
  /\ score (gameLoop (3 # 8) (run hoverThenFall initial)) = 1%Z
  /\ highScore (gameLoop (3 # 8) (run hoverThenFall initial)) = 1%Z.
Proof. vm_compute. repeat split. Qed.

(** Off the reachable states the count can miss a pipe: one that leaves
    the screen unmarked is dropped before the scoring loop runs. *)
Example dropped_before_counting :
  let g := mkState (Bird.mk 100 300 0) [Pipe.mk (-59) 100 250 false]
                   0 playing 0 in
  length (filter (crossesNow g) (pipes g)) = 1%nat
  /\ score (gameLoop 0 g) = 0%Z
  /\ ~ reachable g.
Proof.
  cbv zeta. split; [vm_compute; reflexivity|].
  split; [vm_compute; reflexivity|].
  intros Hreach.
  pose proof (gained_counts 0 _ (reachable_invariant _ Hreach eq_refl))
    as Hgain.
  vm_compute in Hgain. discriminate Hgain.
Qed.

(** In exact arithmetic the rule of [generatePipe] is the gap itself. *)
Lemma gap_exact (g : State Q) (p : Pipe.t Q) :
  reachable g -> In p (pipes g) ->
  Pipe.bottomY p - Pipe.topHeight p == PIPE_GAP.
Proof.
  intros Hg Hp. pose proof (reachable_gapRule g Hg) as Hall.
  rewrite Forall_forall in Hall.
  rewrite (Hall p Hp). to_Q. ring.
Qed.

(** A state in which a pipe is passed on the frame that hits the ground:
    the point is queued, the high score misses it.  The state itself is
    clear of the pipe, but no game gets there: one frame earlier the bird
    would have been beside the pipe and below its gap. *)
Example point_on_the_last_frame :
  let g := mkState (Bird.mk 100 570 10) [Pipe.mk 40 100 250 false]
                   0 playing 0 in
  checkCollision (bird g) (pipes g) = false
  /\
  gameState (gameLoop 0 g) = gameOver
  /\ score (gameLoop 0 g) = 1%Z
  /\ highScore (gameLoop 0 g) = 0%Z
  /\ ~ reachable g.
Proof.
  cbv zeta. split; [vm_compute; reflexivity|].
  split; [vm_compute; reflexivity|].
  split; [vm_compute; reflexivity|].
  split; [vm_compute; reflexivity|].
  intros Hreach.
  pose proof (collision_frame_gains_nothing 0 _ Hreach eq_refl) as Hgain.
  vm_compute in Hgain. discriminate (Hgain eq_refl).
Qed.

End ExactSession.

(** ** The exact reading: the high score and the count on any Playing state *)

Section ExactTally.
Local Open Scope Q_scope.



(** The frame after [lastFramePoint], field by field. *)
Example lastFramePoint_frame :
  checkCollision (bird lastFramePoint) (pipes lastFramePoint) = false
  /\ Bird.y (bird (gameLoop 0 lastFramePoint)) == 1161 # 2
  /\ map Pipe.x (pipes (gameLoop 0 lastFramePoint)) = [40 - 2; 400]
  /\ map Pipe.passed (pipes (gameLoop 0 lastFramePoint)) = [true; false]
  /\ gained 0 lastFramePoint = 1%nat.
Proof. vm_compute. repeat split; reflexivity. Qed.







(** The frame after [crowded]: of the two unmarked pipes whose right edge
    is left of the bird after the move, the one still on screen is
    counted and marked; the other is gone. *)
Example crowded_frame :
  length (filter (crossesNow crowded) (pipes crowded)) = 2%nat
  /\ length (filter (fun p => staysOn p && crossesNow crowded p)
                    (pipes crowded)) = 1%nat
  /\ spawned 0 (pipes crowded) = []
  /\ score (gameLoop 0 crowded) = 8%Z
  /\ map Pipe.x (pipes (gameLoop 0 crowded)) = [40 - 2; 242 - 2]
  /\ map Pipe.passed (pipes (gameLoop 0 crowded)) = [true; false]
  /\ gameState (gameLoop 0 crowded) = playing
  /\ score (gameLoop 0 (gameLoop 0 crowded)) = 8%Z.
Proof. vm_compute. repeat split. Qed.


End ExactTally.

(** ** The score as a JavaScript number *)

Section NumberScore.
Import PrimFloat.

(** [prev + 1] (line 114) in binary64: exact up to 2^53, and back at 2^53
    from there. *)
Example successor_at_2_53_binary64 :
  (0x1p53 - 1 + 1)%float = 0x1p53%float
  /\ (0x1p53 + 1)%float = 0x1p53%float.
Proof. vm_compute. split; reflexivity. Qed.

End NumberScore.

(** ** Input and overlays, in every reading of [number] *)

Section SurfaceFacts.
Import String.
Context {num : Type} `{Number num}.
Local Open Scope js_scope.

Lemma bird_x_step (e : Event num) (g : State num) :
  Bird.x (bird g) = num_lit 100 -> Bird.x (bird (step e g)) = num_lit 100.
Proof.
  intros Hx. destruct e as [random|]; unfold step.
  - destruct (gameState g) eqn:Hs;
      try (rewrite gameLoop_idle by congruence; exact Hx).
    rewrite (gameLoop_playing random g Hs). exact Hx.
  - unfold jump. destruct (gameState g); [reflexivity | exact Hx | reflexivity].
Qed.

Lemma reachable_bird_x (g : State num) :
  reachable g -> Bird.x (bird g) = num_lit 100.
Proof.
  intros Hg. induction Hg as [|e g Hv Hg IH]; [reflexivity|].
  apply bird_x_step. exact IH.
Qed.

(** X1: in every state the component can reach, the bird's x is the 100
    it was created with: no frame and no impulse moves the bird
    sideways. *)
Theorem bird_x_never_changes (g : State num) :
  reachable g -> Bird.x (bird g) = num_lit 100.
Proof. exact (reachable_bird_x g). Qed.

Lemma jump_jump (g : State num) :
  gameState g = playing -> jump (jump g) = jump g.
Proof. intros Hp. unfold jump. rewrite Hp. reflexivity. Qed.

Lemma jump_playing (g : State num) : gameState (jump g) = playing.
Proof. unfold jump. destruct (gameState g); reflexivity. Qed.

Lemma keydowns_cons (code : string) (codes : list string) (g : State num) :
  keydowns (code :: codes) g = keydowns codes (snd (handleKeyPress code g)).
Proof. reflexivity. Qed.

Lemma keydowns_other (codes : list string) (g : State num) :
  ~ In "Space"%string codes -> keydowns codes g = g.
Proof.
  revert g. induction codes as [|code rest IH]; intros g Hn; [reflexivity|].
  rewrite keydowns_cons. unfold handleKeyPress.
  destruct (String.eqb code "Space") eqn:Hc.
  - exfalso. apply Hn. left. apply String.eqb_eq. exact Hc.
  - cbn [snd]. apply IH. intros Hin. apply Hn. right; exact Hin.
Qed.

Lemma keydowns_after_jump (codes : list string) (g : State num) :
  gameState g = playing -> keydowns codes (jump g) = jump g.
Proof.
  intros Hp. induction codes as [|code rest IH]; [reflexivity|].
  rewrite keydowns_cons. unfold handleKeyPress.
  destruct (String.eqb code "Space"); cbn [snd]; [|exact IH].
  rewrite (jump_jump g Hp). exact IH.
Qed.

(** X2: keys other than Space change nothing; while the game is played,
    any succession of key presses that contains Space, with no frame in
    between, leaves the state one impulse leaves: pressing Space again
    before the next frame adds nothing. *)
Theorem keys_between_frames :
  (forall (codes : list string) (g : State num),
      ~ In "Space"%string codes -> keydowns codes g = g)
  /\ (forall (codes : list string) (g : State num),
         gameState g = playing -> In "Space"%string codes ->
         keydowns codes g = jump g)
  /\ (forall (code : string) (g : State num),
         fst (handleKeyPress code g) = String.eqb code "Space").
Proof.
  split; [exact keydowns_other|]. split.
  - intros codes g Hp.
    induction codes as [|code rest IH]; intros Hin; [destruct Hin|].
    rewrite keydowns_cons. unfold handleKeyPress.
    destruct (String.eqb code "Space") eqn:Hc; cbn [snd].
    + apply keydowns_after_jump. exact Hp.
    + apply IH. destruct Hin as [Heq | Hin]; [|exact Hin].
      apply String.eqb_neq in Hc. contradiction.
  - intros code g. unfold handleKeyPress.
    destruct (String.eqb code "Space"); reflexivity.
Qed.

(** X3: a card lies over the canvas exactly when the game is not being
    played, and never two; any impulse takes the card away; a frame
    leaves a card that is shown as it is, and puts one up only by ending
    the game. *)
Theorem overlay_follows_gameState (g : State num) (random : num) :
  (overlays g = [] <-> gameState g = playing)
  /\ (List.length (overlays g) <= 1)%nat
  /\ overlays (jump g) = []
  /\ (overlays g <> [] -> overlays (gameLoop random g) = overlays g)
  /\ (overlays g = [] -> overlays (gameLoop random g) <> [] ->
      gameState (gameLoop random g) = gameOver).
Proof.
  split; [|split; [|split; [|split]]].
  - unfold overlays. destruct (gameState g); cbn; split; congruence.
  - unfold overlays. destruct (gameState g); cbn; lia.
  - unfold overlays. rewrite jump_playing. reflexivity.
  - intros Hshown. rewrite gameLoop_idle; [reflexivity|].
    intros Hp. apply Hshown. unfold overlays. rewrite Hp. reflexivity.
  - intros Hnone Hnew.
    assert (Hg : gameState g = playing).
    { unfold overlays in Hnone.
      destruct (gameState g); [discriminate Hnone | reflexivity |
                               discriminate Hnone]. }
    rewrite (gameLoop_playing random g Hg) in *. cbn zeta in *.
    destruct (checkCollision _ _); [reflexivity|].
    exfalso. apply Hnew. reflexivity.
Qed.

End SurfaceFacts.

(** ** The exact reading: the course of the pipes *)

Section ExactCourse.
Local Open Scope Q_scope.

Lemma lastPipe_app_nonempty (pre l : list (Pipe.t Q)) :
  l <> [] -> lastPipe (pre ++ l) = lastPipe l.
Proof.
  intros Hl. rewrite !lastPipe_rev, rev_app_distr.
  destruct (rev l) as [|z rest] eqn:Hr; [|reflexivity].
  exfalso. apply Hl. rewrite <- (rev_involutive l), Hr. reflexivity.
Qed.

Lemma lastPipe_map (f : Pipe.t Q -> Pipe.t Q) (ps : list (Pipe.t Q)) :
  lastPipe (map f ps) = option_map f (lastPipe ps).
Proof.
  rewrite !lastPipe_rev, <- map_rev. destruct (rev ps); reflexivity.
Qed.

Lemma evenlySpaced_increasing (p : Pipe.t Q) (rest : list (Pipe.t Q)) :
  evenlySpaced (p :: rest) -> Forall (fun q => Pipe.x p < Pipe.x q) rest.
Proof.
  revert p. induction rest as [|q rest IH]; intros p Hp; constructor.
  - destruct Hp as [Hq _]. lra.
  - destruct Hp as [Hq Hrest]. specialize (IH q Hrest).
    revert IH. apply Forall_impl. intros r Hr. lra.
Qed.

Lemma evenlySpaced_tail (p : Pipe.t Q) (rest : list (Pipe.t Q)) :
  evenlySpaced (p :: rest) -> evenlySpaced rest.
Proof. intros [_ Hrest]. exact Hrest. Qed.

Lemma onScreen_iff (p : Pipe.t Q) : onScreen p = true <-> -60 < Pipe.x p.
Proof. unfold onScreen. rewrite ltb_lt. to_Q. reflexivity. Qed.

(** On an increasing sequence the pipes that leave form a prefix. *)
Lemma filter_onScreen_suffix (ps : list (Pipe.t Q)) :
  evenlySpaced ps -> exists pre, ps = pre ++ filter onScreen ps.
Proof.
  induction ps as [|p rest IH]; intros Hps; [exists []; reflexivity|].
  cbn [filter]. destruct (onScreen p) eqn:Hon.
  - exists []. cbn [app]. f_equal.
    pose proof (evenlySpaced_increasing p rest Hps) as Hinc.
    apply onScreen_iff in Hon.
    clear IH Hps. induction Hinc as [|q rest Hq Hinc IH]; [reflexivity|].
    cbn [filter]. rewrite (proj2 (onScreen_iff q)) by lra. f_equal. exact IH.
  - destruct (IH (evenlySpaced_tail p rest Hps)) as (pre & Hpre).
    exists (p :: pre). cbn [app]. f_equal. exact Hpre.
Qed.

Lemma evenlySpaced_suffix (pre l : list (Pipe.t Q)) :
  evenlySpaced (pre ++ l) -> evenlySpaced l.
Proof.
  induction pre as [|p pre IH]; intros Hl; [exact Hl|].
  apply IH. exact (evenlySpaced_tail p _ Hl).
Qed.

Lemma evenlySpaced_same_x (f : Pipe.t Q -> Pipe.t Q) (shift : Q)
  (ps : list (Pipe.t Q)) :
  (forall p, Pipe.x (f p) == Pipe.x p + shift) ->
  evenlySpaced ps -> evenlySpaced (map f ps).
Proof.
  intros Hf. induction ps as [|p rest IH]; intros Hps; [exact I|].
  destruct Hps as [Hq Hrest]. cbn [map evenlySpaced]. split; [|exact (IH Hrest)].
  destruct rest as [|q rest']; [exact I|].
  cbn [map]. rewrite !Hf. lra.
Qed.

Lemma evenlySpaced_snoc (ps : list (Pipe.t Q)) (z : Pipe.t Q) :
  evenlySpaced ps ->
  (forall p, lastPipe ps = Some p -> Pipe.x z == Pipe.x p + 202) ->
  evenlySpaced (ps ++ [z]).
Proof.
  induction ps as [|p rest IH]; intros Hps Hz; [split; exact I|].
  destruct Hps as [Hq Hrest]. destruct rest as [|q rest'].
  - cbn. split; [|split; exact I]. apply Hz. reflexivity.
  - change ((p :: q :: rest') ++ [z]) with (p :: ((q :: rest') ++ [z])).
    split; [exact Hq|]. apply IH; [exact Hrest|].
    intros r Hr. apply Hz. exact Hr.
Qed.

Lemma onGrid_below_200 (p : Pipe.t Q) :
  onGrid p -> 198 <= Pipe.x p -> Pipe.x p < 200 -> Pipe.x p == 198.
Proof.
  intros (k & Hk & Hx) Hlo Hhi.
  assert (Hk1 : inject_Z 100 < inject_Z k) by (unfold inject_Z at 1; lra).
  assert (Hk2 : inject_Z k < inject_Z 102) by (unfold inject_Z at 2; lra).
  rewrite <- Zlt_Qlt in Hk1, Hk2.
  assert (Hk3 : k = 101%Z) by lia. subst k. rewrite Hx. reflexivity.
Qed.

Lemma onGrid_movePipe (p : Pipe.t Q) : onGrid p -> onGrid (movePipe p).
Proof.
  intros (k & Hk & Hx). exists (k + 1)%Z. split; [lia|].
  unfold movePipe; cbn [Pipe.x]. rewrite Hx, inject_Z_plus.
  to_Q. ring.
Qed.

Lemma onGrid_generatePipe (random : Q) : onGrid (generatePipe random).
Proof. exists 0%Z. split; [lia | reflexivity]. Qed.

End ExactCourse.

Section ExactCourseKept.
Local Open Scope Q_scope.

Lemma markPassed_passed (bx : Q) (q : Pipe.t Q) :
  bx == 100 ->
  (Pipe.passed (markPassed bx q) = true <->
   Pipe.passed q = true \/ Pipe.x q + 60 < 100).
Proof.
  intros Hx. unfold markPassed, crosses; cbn [Pipe.passed].
  rewrite orb_true_iff, andb_true_iff, negb_true_iff, ltb_lt. to_Q.
  rewrite Hx. destruct (Pipe.passed q); split; intros Hq; tauto.
Qed.

Lemma kept_of_course (g : State Q) :
  evenlySpaced (pipes g) ->
  evenlySpaced (filter onScreen (map movePipe (pipes g)))
  /\ (forall z, lastPipe (filter onScreen (map movePipe (pipes g))) = Some z ->
        exists z0, lastPipe (pipes g) = Some z0 /\ z = movePipe z0).
Proof.
  intros Heven.
  assert (Hmoved : evenlySpaced (map movePipe (pipes g))).
  { apply (evenlySpaced_same_x movePipe (-2)); [|exact Heven].
    intros p. unfold movePipe; cbn [Pipe.x]. to_Q. ring. }
  destruct (filter_onScreen_suffix _ Hmoved) as (pre & Hpre).
  split.
  - apply (evenlySpaced_suffix pre). rewrite <- Hpre. exact Hmoved.
  - intros z Hz.
    assert (Hne : filter onScreen (map movePipe (pipes g)) <> []).
    { intros He. rewrite He in Hz. discriminate Hz. }
    rewrite <- (lastPipe_app_nonempty pre _ Hne), <- Hpre, lastPipe_map in Hz.
    destruct (lastPipe (pipes g)) as [z0|]; [|discriminate Hz].
    exists z0. split; [reflexivity|]. injection Hz as <-. reflexivity.
Qed.

Lemma Course_frame (random : Q) (g : State Q) :
  gameState g = playing -> Course g -> Course (gameLoop random g).
Proof.
  intros Hp [Hx Hwin Hgrid Heven Hlast Hpassed].
  rewrite (gameLoop_playing random g Hp). cbn zeta.
  destruct (kept_of_course g Heven) as [Hkept Hkeptlast].
  constructor; cbn [bird pipes fall Bird.x].
  - exact Hx.
  - apply Forall_forall. intros q' Hq'.
    apply In_nextPipes in Hq' as (q & Hq & ->).
    change (Pipe.x (markPassed (Bird.x (bird g)) q)) with (Pipe.x q).
    apply In_pipesBeforeScoring in Hq as [-> | (p & Hin & -> & Hon)].
    + destruct (generatePipe_fields random) as (Hgx & _). rewrite Hgx. lra.
    + rewrite Forall_forall in Hwin. specialize (Hwin p Hin).
      unfold movePipe; cbn [Pipe.x]. to_Q. lra.
  - apply Forall_forall. intros q' Hq'.
    apply In_nextPipes in Hq' as (q & Hq & ->).
    apply In_pipesBeforeScoring in Hq as [-> | (p & Hin & -> & Hon)].
    + exact (onGrid_generatePipe random).
    + rewrite Forall_forall in Hgrid.
      exact (onGrid_movePipe p (Hgrid p Hin)).
  - unfold nextPipes, pipesBeforeScoring.
    apply (evenlySpaced_same_x _ 0); [intros p; cbn [markPassed Pipe.x]; ring|].
    unfold addPipe, needsPipe.
    destruct (lastPipe (filter onScreen (map movePipe (pipes g))))
      as [z|] eqn:Hz.
    + destruct (Pipe.x z <? CANVAS_WIDTH - num_lit 200)%js eqn:Hlt;
        [|exact Hkept].
      apply evenlySpaced_snoc; [exact Hkept|].
      intros z' Hz'. rewrite Hz in Hz'. injection Hz' as <-.
      destruct (Hkeptlast z eq_refl) as (z0 & Hz0 & ->).
      pose proof (Hlast z0 Hz0) as H200.
      assert (Hgridz : onGrid (movePipe z0)).
      { apply onGrid_movePipe. rewrite Forall_forall in Hgrid.
        apply Hgrid. apply lastPipe_In. exact Hz0. }
      apply ltb_lt in Hlt.
      rewrite (onGrid_below_200 _ Hgridz).
      * reflexivity.
      * unfold movePipe; cbn [Pipe.x]. to_Q. lra.
      * to_Q. lra.
    + apply evenlySpaced_snoc; [exact Hkept|].
      intros z' Hz'. rewrite Hz in Hz'. discriminate Hz'.
  - intros q' Hq'. unfold nextPipes in Hq'. rewrite lastPipe_map in Hq'.
    destruct (lastPipe (pipesBeforeScoring random g)) as [q|] eqn:Hq;
      [|discriminate Hq'].
    injection Hq' as <-.
    change (Pipe.x (markPassed (Bird.x (bird g)) q)) with (Pipe.x q).
    unfold pipesBeforeScoring, addPipe in Hq.
    destruct (needsPipe _) eqn:Hneeds.
    + rewrite lastPipe_snoc in Hq. injection Hq as <-.
      destruct (generatePipe_fields random) as (Hgx & _). rewrite Hgx. lra.
    + unfold needsPipe in Hneeds. rewrite Hq in Hneeds.
      apply ltb_ge in Hneeds. to_Q. lra.
  - apply Forall_forall. intros q' Hq'.
    apply In_nextPipes in Hq' as (q & Hq & ->).
    rewrite (markPassed_passed _ q Hx).
    change (Pipe.x (markPassed (Bird.x (bird g)) q)) with (Pipe.x q).
    apply In_pipesBeforeScoring in Hq as [-> | (p & Hin & -> & Hon)].
    + destruct (generatePipe_fields random) as (Hgx & _ & _ & Hgp).
      rewrite Hgx, Hgp. split; [intros [Hf | Hf]; [discriminate Hf | lra] | lra].
    + rewrite Forall_forall in Hpassed. specialize (Hpassed p Hin).
      unfold movePipe; cbn [Pipe.x Pipe.passed]. to_Q.
      rewrite Hpassed. split; [intros [Hq | Hq]; lra | tauto].
Qed.

Lemma Course_initGame (g : State Q) : Course (initGame g).
Proof.
  constructor; cbn [initGame bird pipes startBird Bird.x].
  - reflexivity.
  - constructor.
  - constructor.
  - exact I.
  - intros p Hp. discriminate Hp.
  - constructor.
Qed.

Lemma Course_step (e : Event Q) (g : State Q) :
  Course g -> Course (step e g).
Proof.
  intros Hg. destruct e as [random|]; unfold step.
  - destruct (gameState g) eqn:Hs;
      try (rewrite gameLoop_idle by congruence; exact Hg).
    apply Course_frame; assumption.
  - unfold jump. destruct (gameState g);
      [apply Course_initGame | | apply Course_initGame].
    destruct Hg as [Hx Hwin Hgrid Heven Hlast Hpassed].
    constructor; assumption.
Qed.

Lemma reachable_course (g : State Q) : reachable g -> Course g.
Proof.
  intros Hg. induction Hg as [|e g He Hg IH].
  - constructor; cbn [initial bird pipes startBird Bird.x].
    + reflexivity.
    + constructor.
    + constructor.
    + exact I.
    + intros p Hp. discriminate Hp.
    + constructor.
  - apply Course_step. exact IH.
Qed.

End ExactCourseKept.

(** ** The exact reading: what the course of the pipes gives *)

Section ExactCourseFacts.
Local Open Scope Q_scope.

Lemma hover_reachable : reachable (run hover initial).
Proof. apply reachable_run; [vm_compute; reflexivity | constructor]. Qed.

Lemma evenlySpaced_nth (ps : list (Pipe.t Q)) (i : nat) (p q : Pipe.t Q) :
  evenlySpaced ps ->
  nth_error ps i = Some p -> nth_error ps (S i) = Some q ->
  Pipe.x q == Pipe.x p + 202.
Proof.
  revert i. induction ps as [|a rest IH]; intros i Hps Hp Hq;
    [destruct i; discriminate Hp|].
  destruct Hps as [Ha Hrest]. destruct i as [|i].
  - cbn in Hp. injection Hp as ->. cbn in Hq.
    destruct rest as [|b rest']; [discriminate Hq|].
    cbn in Hq. injection Hq as ->. exact Ha.
  - exact (IH i Hrest Hp Hq).
Qed.

Lemma at_most_three (ps : list (Pipe.t Q)) :
  evenlySpaced ps ->
  Forall (fun p => -60 < Pipe.x p /\ Pipe.x p <= 400) ps ->
  (length ps <= 3)%nat.
Proof.
  intros Heven Hwin.
  destruct ps as [|a [|b [|c [|d rest]]]]; cbn [length]; try lia.
  exfalso. destruct Heven as (Hab & Hbc & Hcd & _).
  inversion Hwin as [|? ? [Ha _] Hwin1]; subst.
  inversion Hwin1 as [|? ? _ Hwin2]; subst.
  inversion Hwin2 as [|? ? _ Hwin3]; subst.
  inversion Hwin3 as [|? ? [_ Hd] _]; subst.
  lra.
Qed.

(** X4: in every reachable state each pipe has x in
    (-PIPE_WIDTH, CANVAS_WIDTH], so at least part of it is on the canvas,
    and there are never more than three pipes: the sequence does not
    grow with the length of the game. *)
Theorem pipes_are_recycled (g : State Q) :
  reachable g ->
  Forall (fun p => - PIPE_WIDTH < Pipe.x p /\ Pipe.x p <= CANVAS_WIDTH)
         (pipes g)
  /\ (length (pipes g) <= 3)%nat.
Proof.
  intros Hg. destruct (reachable_course g Hg) as [_ Hwin _ Heven _ _].
  split; [|exact (at_most_three _ Heven Hwin)].
  revert Hwin. apply Forall_impl. intros p Hp. to_Q. exact Hp.
Qed.

Lemma pipes_are_recycled_hover :
  reachable (run hover initial)
  /\ Forall (fun p => - PIPE_WIDTH < Pipe.x p /\ Pipe.x p <= CANVAS_WIDTH)
            (pipes (run hover initial))
  /\ (length (pipes (run hover initial)) <= 3)%nat.
Proof.
  split; [exact hover_reachable|].
  apply (pipes_are_recycled (run hover initial)). exact hover_reachable.
Defined.

(** X5: in every reachable state two pipes that follow each other in the
    sequence stand exactly 202 apart: a new pipe enters every 101
    frames of play. *)
Theorem pipes_stand_202_apart (g : State Q) (i : nat) (p q : Pipe.t Q) :
  reachable g ->
  nth_error (pipes g) i = Some p -> nth_error (pipes g) (S i) = Some q ->
  Pipe.x q == Pipe.x p + 202.
Proof.
  intros Hg. apply evenlySpaced_nth.
  exact (course_even g (reachable_course g Hg)).
Qed.

Lemma pipes_stand_202_apart_hover :
  reachable (run hover initial)
  /\ nth_error (pipes (run hover initial)) 0
     = Some (Pipe.mk (40 # 1) (1450 # 8) (2650 # 8) false)
  /\ nth_error (pipes (run hover initial)) 1
     = Some (Pipe.mk (242 # 1) (1450 # 8) (2650 # 8) false)
  /\ (242 # 1) == (40 # 1) + 202.
Proof.
  split; [exact hover_reachable|].
  assert (H0 : nth_error (pipes (run hover initial)) 0
     = Some (Pipe.mk (40 # 1) (1450 # 8) (2650 # 8) false)) by (vm_compute; reflexivity).
  assert (H1 : nth_error (pipes (run hover initial)) 1
     = Some (Pipe.mk (242 # 1) (1450 # 8) (2650 # 8) false)) by (vm_compute; reflexivity).
  split; [exact H0|]. split; [exact H1|].
  exact (pipes_stand_202_apart (run hover initial) 0 _ _
           hover_reachable H0 H1).
Defined.

(** X6: in every reachable state a pipe is marked passed exactly when
    its right edge is left of the bird's x. *)
Theorem passed_means_behind (g : State Q) (p : Pipe.t Q) :
  reachable g -> In p (pipes g) ->
  (Pipe.passed p = true <-> Pipe.x p + PIPE_WIDTH < Bird.x (bird g)).
Proof.
  intros Hg Hp. destruct (reachable_course g Hg) as [Hx _ _ _ _ Hpassed].
  rewrite Forall_forall in Hpassed. rewrite (Hpassed p Hp), Hx. to_Q.
  reflexivity.
Qed.

End ExactCourseFacts.

Section ExactFlight.
Local Open Scope Q_scope.

Lemma passed_means_behind_hover :
  reachable (run hover initial)
  /\ In (Pipe.mk (40 # 1) (1450 # 8) (2650 # 8) false)
        (pipes (run hover initial))
  /\ (Pipe.passed (Pipe.mk (40 # 1) (1450 # 8) (2650 # 8) false) = true
      <-> Pipe.x (Pipe.mk (40 # 1) (1450 # 8) (2650 # 8) false) + PIPE_WIDTH
          < Bird.x (bird (run hover initial))).
Proof.
  assert (Hin : In (Pipe.mk (40 # 1) (1450 # 8) (2650 # 8) false)
                   (pipes (run hover initial))).
  { vm_compute. left. reflexivity. }
  split; [exact hover_reachable|]. split; [exact Hin|].
  exact (passed_means_behind (run hover initial) _ hover_reachable Hin).
Defined.

Lemma frames_idle (draws : list Q) (g : State Q) :
  gameState g <> playing -> run (frames draws) g = g.
Proof.
  intros Hn. induction draws as [|r rest IH]; [reflexivity|].
  change (run (frames (r :: rest)) g)
    with (run (frames rest) (gameLoop r g)).
  rewrite gameLoop_idle by exact Hn. exact IH.
Qed.

Lemma playing_back (draws : list Q) (g : State Q) :
  gameState (run (frames draws) g) = playing -> gameState g = playing.
Proof.
  intros Hp. destruct (gameState g) eqn:Hg; [|reflexivity|];
    rewrite frames_idle in Hp by congruence; congruence.
Qed.

Lemma never_back_to_menu (draws : list Q) (g : State Q) :
  gameState g = playing -> gameState (run (frames draws) g) <> menu.
Proof.
  revert g. induction draws as [|r rest IH]; intros g Hp.
  { change (run (frames []) g) with g. congruence. }
  change (run (frames (r :: rest)) g)
    with (run (frames rest) (gameLoop r g)).
  destruct (gameState (gameLoop r g)) eqn:Hs.
  - rewrite (gameLoop_playing r g Hp) in Hs. cbn in Hs.
    destruct (checkCollision _ _); discriminate Hs.
  - apply IH. exact Hs.
  - rewrite frames_idle by congruence. congruence.
Qed.

Lemma count_cons (r : Q) (draws : list Q) :
  count (r :: draws) == count draws + 1.
Proof.
  unfold count. cbn [length]. rewrite Nat2Z.inj_succ, <- Z.add_1_r.
  rewrite inject_Z_plus. reflexivity.
Qed.

Lemma count_nonneg (draws : list Q) : 0 <= count draws.
Proof.
  unfold count. change 0 with (inject_Z 0). rewrite <- Zle_Qle. lia.
Qed.

Lemma count_of_length (draws : list Q) (n : nat) :
  length draws = n -> count draws = inject_Z (Z.of_nat n).
Proof. intros <-. reflexivity. Qed.

Lemma count_integral (draws : list Q) (k : Z) :
  count draws <= inject_Z k \/ inject_Z (k + 1) <= count draws.
Proof.
  unfold count. rewrite <- !Zle_Qle. lia.
Qed.

(** The bird after frames that all leave the game on. *)
Lemma flight (draws : list Q) (g : State Q) :
  gameState (run (frames draws) g) = playing ->
  Bird.velocity (bird (run (frames draws) g))
  == Bird.velocity (bird g) + (1 # 2) * count draws
  /\ Bird.y (bird (run (frames draws) g))
     == Bird.y (bird g) + count draws * Bird.velocity (bird g)
        + (1 # 4) * count draws * (count draws + 1).
Proof.
  revert g. induction draws as [|r rest IH]; intros g Hp.
  - change (run (frames []) g) with g. unfold count; cbn [length Z.of_nat].
    change (inject_Z 0) with 0. split; ring.
  - change (run (frames (r :: rest)) g)
      with (run (frames rest) (gameLoop r g)) in *.
    pose proof (playing_back rest _ Hp) as Hp1.
    assert (Hg : gameState g = playing).
    { destruct (gameState g) eqn:Hg; [|reflexivity|];
        rewrite gameLoop_idle in Hp1 by congruence; congruence. }
    destruct (IH _ Hp) as [Hv Hy]. rewrite Hv, Hy, count_cons.
    rewrite (gameLoop_playing r g Hg). cbn [bird fall Bird.y Bird.velocity].
    to_Q. split; ring.
Qed.

Lemma last_frame_clear (draws : list Q) (g : State Q) :
  draws <> [] -> gameState (run (frames draws) g) = playing ->
  checkCollision (bird (run (frames draws) g))
                 (pipes (run (frames draws) g)) = false.
Proof.
  intros Hne Hp. destruct (exists_last Hne) as (l & r & ->).
  unfold frames in *. rewrite map_app, run_app in *. cbn [map] in *.
  change (run [Frame r] ?s) with (gameLoop r s) in *.
  assert (Hg : gameState (run (map Frame l) g) = playing).
  { destruct (gameState (run (map Frame l) g)) eqn:Hg; [|reflexivity|];
      rewrite gameLoop_idle in Hp by congruence; congruence. }
  rewrite (gameLoop_playing r _ Hg) in *. cbn zeta in *.
  destruct (checkCollision _ _) eqn:Hhit; [discriminate Hp|].
  reflexivity.
Qed.

End ExactFlight.

(** ** The exact reading: flight, the end of a game and its card *)

Section ExactFlightFacts.
Local Open Scope Q_scope.

(** X7: while frames follow one another without an impulse and the game
    stays on, the bird is in free fall: after n frames its velocity has
    grown by n/2 and its y by n times the starting velocity plus
    n(n+1)/4. *)
Theorem free_fall (draws : list Q) (g : State Q) :
  gameState (run (frames draws) g) = playing ->
  Bird.velocity (bird (run (frames draws) g))
  == Bird.velocity (bird g) + (1 # 2) * count draws
  /\ Bird.y (bird (run (frames draws) g))
     == Bird.y (bird g) + count draws * Bird.velocity (bird g)
        + (1 # 4) * count draws * (count draws + 1).
Proof. exact (flight draws g). Qed.

Lemma free_fall_ten_frames :
  gameState (run (frames (repeat (3 # 8) 10)) (jump (@initial Q _)))
  = playing
  /\ Bird.velocity
       (bird (run (frames (repeat (3 # 8) 10)) (jump (@initial Q _))))
     == Bird.velocity (bird (jump (@initial Q _)))
        + (1 # 2) * count (repeat (3 # 8) 10)
  /\ Bird.y (bird (run (frames (repeat (3 # 8) 10)) (jump (@initial Q _))))
     == Bird.y (bird (jump (@initial Q _)))
        + count (repeat (3 # 8) 10) * Bird.velocity (bird (jump (@initial Q _)))
        + (1 # 4) * count (repeat (3 # 8) 10)
          * (count (repeat (3 # 8) 10) + 1).
Proof.
  split; [vm_compute; reflexivity|].
  apply (free_fall (repeat (3 # 8) 10) (jump initial)).
  vm_compute; reflexivity.
Defined.

(** X8: after an impulse given during play, as long as frames follow
    without another impulse and the game stays on, the bird is never more
    than 60 above the height it had at the impulse; after 16 frames it
    is 60 above it, and after 31 frames it is back at that height,
    falling at 7.5 a frame. *)
Theorem impulse_arc (draws : list Q) (g : State Q) :
  gameState g = playing ->
  gameState (run (frames draws) (jump g)) = playing ->
  Bird.y (bird g) - 60 <= Bird.y (bird (run (frames draws) (jump g)))
  /\ (length draws = 16%nat ->
      Bird.y (bird (run (frames draws) (jump g))) == Bird.y (bird g) - 60)
  /\ (length draws = 31%nat ->
      Bird.y (bird (run (frames draws) (jump g))) == Bird.y (bird g)
      /\ Bird.velocity (bird (run (frames draws) (jump g))) == 15 # 2).
Proof.
  intros Hg Hp. destruct (flight draws (jump g) Hp) as [Hv Hy].
  assert (Hj : bird (jump g)
               = Bird.mk (Bird.x (bird g)) (Bird.y (bird g)) JUMP_FORCE).
  { unfold jump. rewrite Hg. reflexivity. }
  rewrite Hj in Hv, Hy. cbn [Bird.y Bird.velocity] in Hv, Hy.
  rewrite Hv, Hy. to_Q. split; [|split].
  - pose proof (count_nonneg draws) as H0.
    destruct (count_integral draws 15) as [Hn | Hn];
      unfold inject_Z in Hn; cbn in Hn; nra.
  - intros Hlen. rewrite (count_of_length draws 16 Hlen).
    unfold inject_Z; cbn. ring.
  - intros Hlen. rewrite (count_of_length draws 31 Hlen).
    unfold inject_Z; cbn. split; ring.
Qed.

Lemma impulse_arc_sixteen_frames :
  gameState (jump (@initial Q _)) = playing
  /\ gameState (run (frames (repeat (3 # 8) 16)) (jump (jump initial)))
     = playing
  /\ Bird.y (bird (jump (@initial Q _))) - 60
     <= Bird.y (bird (run (frames (repeat (3 # 8) 16)) (jump (jump initial))))
  /\ (length (repeat (3 # 8) 16) = 16%nat ->
      Bird.y (bird (run (frames (repeat (3 # 8) 16)) (jump (jump initial))))
      == Bird.y (bird (jump (@initial Q _))) - 60)
  /\ (length (repeat (3 # 8) 16) = 31%nat ->
      Bird.y (bird (run (frames (repeat (3 # 8) 16)) (jump (jump initial))))
      == Bird.y (bird (jump (@initial Q _)))
      /\ Bird.velocity
           (bird (run (frames (repeat (3 # 8) 16)) (jump (jump initial))))
         == 15 # 2).
Proof.
  split; [reflexivity|]. split; [vm_compute; reflexivity|].
  apply (impulse_arc (repeat (3 # 8) 16) (jump initial)).
  - reflexivity.
  - vm_compute; reflexivity.
Defined.

Lemma fall_reaches_ground (y v n : Q) :
  0 < y -> -8 <= v -> 67 <= n ->
  580 <= y + n * v + (1 # 4) * n * (n + 1).
Proof.
  intros Hy Hv Hn.
  assert (H1 : 0 <= n * (v + 8)) by (apply Qmult_le_0_compat; lra).
  assert (H2 : 0 <= (n - 67) * (n + 36)) by (apply Qmult_le_0_compat; lra).
  nra.
Qed.

(** X9: a game that gets no impulse is over within 67 frames: from any
    reachable state in which the game is played, 67 or more frames in a
    row end in GameOver. *)
Theorem no_impulse_ends_the_game (draws : list Q) (g : State Q) :
  reachable g -> gameState g = playing -> (67 <= length draws)%nat ->
  gameState (run (frames draws) g) = gameOver.
Proof.
  intros Hreach Hg Hlen.
  destruct (gameState (run (frames draws) g)) eqn:Hend; [| |reflexivity].
  - exfalso. exact (never_back_to_menu draws g Hg Hend).
  - exfalso.
    destruct (reachable_invariant g Hreach Hg) as [_ Hclear Hv _ _ _ _].
    apply clear_facts in Hclear as (Hy0 & _ & _).
    assert (Hne : draws <> []) by (intros ->; cbn in Hlen; lia).
    pose proof (last_frame_clear draws g Hne Hend) as Hlast.
    apply clear_facts in Hlast as (_ & Hy1 & _).
    destruct (flight draws g Hend) as [_ Hy]. rewrite Hy in Hy1.
    assert (Hn : 67 <= count draws).
    { unfold count. change 67 with (inject_Z 67). rewrite <- Zle_Qle. lia. }
    pose proof (fall_reaches_ground _ _ _ Hy0 Hv Hn). lra.
Qed.

Lemma no_impulse_ends_the_game_from_start :
  reachable (jump (@initial Q _))
  /\ gameState (jump (@initial Q _)) = playing
  /\ (67 <= length (repeat (3 # 8) 67))%nat
  /\ gameState (run (frames (repeat (3 # 8) 67)) (jump initial)) = gameOver.
Proof.
  assert (Hreach : reachable (jump (@initial Q _))).
  { apply (reachable_step Impulse); [reflexivity | constructor]. }
  split; [exact Hreach|]. split; [reflexivity|].
  split; [vm_compute; lia|].
  apply (no_impulse_ends_the_game (repeat (3 # 8) 67) (jump initial) Hreach).
  - reflexivity.
  - vm_compute; lia.
Defined.

(** X10: in every reachable state in which the game is played nothing
    is hit: the bird is strictly between ceiling and ground line and
    inside the gap of every pipe it overlaps; and it moves up by at most
    8 and down by less than 25.5 a frame. *)
Theorem play_is_clear (g : State Q) :
  reachable g -> gameState g = playing ->
  checkCollision (bird g) (pipes g) = false
  /\ (0 < Bird.y (bird g) /\ Bird.y (bird g) < CANVAS_HEIGHT - BIRD_SIZE)
  /\ (JUMP_FORCE <= Bird.velocity (bird g)
      /\ Bird.velocity (bird g) < 51 # 2).
Proof.
  intros Hreach Hg.
  destruct (reachable_invariant g Hreach Hg) as [_ Hclear Hv He _ _ _].
  split; [exact Hclear|].
  apply clear_facts in Hclear as (Hy0 & Hy1 & _). to_Q.
  split; [split; lra|]. split; [lra|].
  apply Qnot_le_lt. intros Hfast. nra.
Qed.

Lemma play_is_clear_hover :
  reachable (run hover initial)
  /\ gameState (run hover initial) = playing
  /\ checkCollision (bird (run hover initial)) (pipes (run hover initial))
     = false
  /\ (0 < Bird.y (bird (run hover initial))
      /\ Bird.y (bird (run hover initial)) < CANVAS_HEIGHT - BIRD_SIZE)
  /\ (JUMP_FORCE <= Bird.velocity (bird (run hover initial))
      /\ Bird.velocity (bird (run hover initial)) < 51 # 2).
Proof.
  split; [exact hover_reachable|]. split; [vm_compute; reflexivity|].
  apply (play_is_clear (run hover initial) hover_reachable).
  vm_compute; reflexivity.
Defined.

Lemma scores_step (e : Event Q) (g : State Q) :
  reachable g ->
  ((0 <= score g)%Z /\ (0 <= highScore g)%Z
   /\ (gameState g = gameOver -> (score g <= highScore g)%Z)) ->
  (0 <= score (step e g))%Z /\ (0 <= highScore (step e g))%Z
  /\ (gameState (step e g) = gameOver ->
      (score (step e g) <= highScore (step e g))%Z).
Proof.
  intros Hreach (Hs & Hh & Hover). destruct e as [random|]; unfold step.
  - destruct (gameState g) eqn:Hg;
      try (rewrite gameLoop_idle by congruence; rewrite Hg; tauto).
    rewrite (gameLoop_playing random g Hg). cbn zeta.
    destruct (checkCollision (fall (bird g)) (nextPipes random g)) eqn:Hhit;
      cbn [score highScore gameState].
    + rewrite (collision_frame_gains_nothing random g Hreach Hg Hhit).
      repeat split; lia.
    + repeat split; try lia. discriminate.
  - unfold jump. destruct (gameState g) eqn:Hg;
      cbn [initGame score highScore gameState];
      repeat split; try lia; discriminate.
Qed.

Lemma reachable_scores (g : State Q) :
  reachable g ->
  (0 <= score g)%Z /\ (0 <= highScore g)%Z
  /\ (gameState g = gameOver -> (score g <= highScore g)%Z).
Proof.
  intros Hg. induction Hg as [|e g He Hg IH].
  - cbn. repeat split; lia.
  - apply scores_step; assumption.
Qed.

(** X11: score and high score are never negative, and the card shown
    after a game never shows a high score below the score of the game
    that just ended. *)
Theorem final_card_is_consistent (g : State Q) (s h : Z) :
  reachable g ->
  ((0 <= score g)%Z /\ (0 <= highScore g)%Z)
  /\ (In (GameOverOverlay s h) (overlays g) ->
      s = score g /\ h = highScore g /\ (0 <= s <= h)%Z).
Proof.
  intros Hreach. destruct (reachable_scores g Hreach) as (Hs & Hh & Hover).
  split; [split; assumption|].
  unfold overlays. destruct (gameState g); cbn.
  - intros [Hc | []]. discriminate Hc.
  - intros [].
  - intros [Hc | []]. injection Hc as <- <-.
    specialize (Hover eq_refl). repeat split; lia.
Qed.

Lemma reachable_game_over :
  reachable (run (hoverThenFall ++ [Frame (3 # 8)]) initial).
Proof. apply reachable_run; [vm_compute; reflexivity | constructor]. Qed.

Lemma final_card_is_consistent_after_hover :
  reachable (run (hoverThenFall ++ [Frame (3 # 8)]) initial)
  /\ ((0 <= score (run (hoverThenFall ++ [Frame (3 # 8)]) initial))%Z
      /\ (0 <= highScore (run (hoverThenFall ++ [Frame (3 # 8)]) initial))%Z)
  /\ (In (GameOverOverlay 1 1)
         (overlays (run (hoverThenFall ++ [Frame (3 # 8)]) initial)) ->
      1%Z = score (run (hoverThenFall ++ [Frame (3 # 8)]) initial)
      /\ 1%Z = highScore (run (hoverThenFall ++ [Frame (3 # 8)]) initial)
      /\ (0 <= 1 <= 1)%Z).
Proof.
  split; [exact reachable_game_over|].
  exact (final_card_is_consistent _ 1 1 reachable_game_over).
Defined.

Example final_card_after_hover :
  overlays (run (hoverThenFall ++ [Frame (3 # 8)]) initial)
  = [GameOverOverlay 1 1].
Proof. vm_compute. reflexivity. Qed.

End ExactFlightFacts.

(** ** The exact reading: the picture against the collision test *)

Section ExactPictureFacts.
Import String.
Local Open Scope Q_scope.

Lemma painted_pipes (PI : Q) (ps : list (Pipe.t Q)) (rest : list (Cmd Q)) :
  painted "#228B22" (flat_map drawPipe ps ++ rest)
  = flat_map pipeRects ps ++ painted "#228B22" rest.
Proof.
  induction ps as [|p ps IH]; [reflexivity|].
  cbn [flat_map]. rewrite <- !app_assoc.
  unfold drawPipe at 1. cbn [app painted]. rewrite IH. reflexivity.
Qed.

Lemma picture_eq (PI : Q) (g : State Q) :
  picture PI g
  = ("#87CEEB"%string, (0, 0, CANVAS_WIDTH, CANVAS_HEIGHT))
      :: flat_map pipeRects (pipes g)
      ++ [("#8B4513"%string, groundStrip)].
Proof.
  unfold picture, draw. cbn [app painted].
  rewrite (painted_pipes PI). reflexivity.
Qed.

Lemma green_rects (PI : Q) (g : State Q) (r : Rect) :
  In ("#228B22"%string, r) (picture PI g) <->
  exists p, In p (pipes g) /\ (r = topBody p \/ r = bottomBody p).
Proof.
  rewrite picture_eq. cbn [In]. rewrite in_app_iff, in_flat_map. split.
  - intros [Hsky | [(p & Hin & Hr) | [Hground | []]]];
      [discriminate Hsky | | discriminate Hground].
    exists p. split; [exact Hin|]. unfold pipeRects in Hr. cbn [In] in Hr.
    destruct Hr as [Hr | [Hr | [Hr | [Hr | []]]]];
      try discriminate Hr; injection Hr as <-; tauto.
  - intros (p & Hin & Hr). right; left. exists p. split; [exact Hin|].
    unfold pipeRects. cbn [In]. destruct Hr as [-> | ->]; tauto.
Qed.

Lemma half_size : BIRD_SIZE / 2 == 10.
Proof. vm_compute. reflexivity. Qed.

Lemma inRect_birdBox (b : Bird.t Q) (px py : Q) :
  inRect (birdBox b) px py <->
  (Bird.x b <= px /\ px < Bird.x b + 20)
  /\ (Bird.y b <= py /\ py < Bird.y b + 20).
Proof.
  unfold inRect, birdBox. rewrite !half_size.
  split; intros [[H1 H2] [H3 H4]]; repeat split; lra.
Qed.

Lemma rectOverlap_birdBox (b : Bird.t Q) (x y w h : Q) :
  rectOverlap (birdBox b) (x, y, w, h) <->
  overlap x (x + w) (Bird.x b) (Bird.x b + 20)
  /\ overlap y (y + h) (Bird.y b) (Bird.y b + 20).
Proof.
  unfold rectOverlap, overlap. split.
  - intros (px & py & Hb & Hr). apply inRect_birdBox in Hb.
    unfold inRect in Hr. split; [exists px | exists py]; tauto.
  - intros [(px & Hpx) (py & Hpy)]. exists px, py.
    rewrite inRect_birdBox. unfold inRect. tauto.
Qed.

Lemma overlap_from (a b c d : Q) :
  overlap a b c d <-> a < b /\ c < d /\ a < d /\ c < b.
Proof.
  unfold overlap. split.
  - intros (z & [H1 H2] & [H3 H4]). repeat split; lra.
  - intros (Hab & Hcd & Had & Hcb).
    destruct (Qlt_le_dec a c) as [Hlt | Hle];
      [exists c | exists a]; repeat split; lra.
Qed.

Lemma hitsPipe_picture (b : Bird.t Q) (p : Pipe.t Q) :
  0 < Bird.y b -> Bird.y b < 580 ->
  0 < Pipe.topHeight p -> Pipe.bottomY p < 600 ->
  (hitsPipe b p = true <->
   rectOverlap (birdBox b) (topBody p)
   \/ rectOverlap (birdBox b) (bottomBody p)).
Proof.
  intros Hy0 Hy1 Ht Hb. rewrite hitsPipe_iff.
  unfold topBody, bottomBody. rewrite !rectOverlap_birdBox.
  rewrite !overlap_from. to_Q. split.
  - intros [(H1 & H2 & H3 & H4) [Hup | Hdown]];
      [left | right]; repeat split; lra.
  - intros [[(H1 & H2 & H3 & H4) (H5 & H6 & H7 & H8)]
           | [(H1 & H2 & H3 & H4) (H5 & H6 & H7 & H8)]];
      (split; [repeat split; lra|]); [left | right]; lra.
Qed.

(** X12: what is hit is what is drawn.  For a bird between ceiling and
    ground line and pipes whose gaps lie inside the canvas,
    [checkCollision] answers true exactly when the square around the
    bird's body overlaps one of the rectangles that [draw] fills in the
    body colour of the pipes. *)
Theorem collision_is_overlap_with_a_drawn_pipe (PI : Q) (g : State Q) :
  0 < Bird.y (bird g) -> Bird.y (bird g) < CANVAS_HEIGHT - BIRD_SIZE ->
  Forall (fun p => 0 < Pipe.topHeight p /\ Pipe.bottomY p < CANVAS_HEIGHT)
         (pipes g) ->
  (checkCollision (bird g) (pipes g) = true <->
   exists r, In ("#228B22"%string, r) (picture PI g)
             /\ rectOverlap (birdBox (bird g)) r).
Proof.
  intros Hy0 Hy1 Hps. rewrite Forall_forall in Hps. to_Q.
  rewrite checkCollision_iff. to_Q. split.
  - intros [Hy | [Hy | (p & Hin & Hhit)]]; [lra | lra |].
    destruct (Hps p Hin) as [Ht Hb].
    apply (hitsPipe_picture _ p) in Hhit; try lra.
    destruct Hhit as [Hr | Hr];
      [exists (topBody p) | exists (bottomBody p)];
      (split; [apply green_rects; exists p; tauto | exact Hr]).
  - intros (r & Hr & Hover). apply green_rects in Hr as (p & Hin & Hr).
    right; right. exists p. split; [exact Hin|].
    destruct (Hps p Hin) as [Ht Hb].
    apply hitsPipe_picture; try lra.
    destruct Hr as [-> | ->]; tauto.
Qed.

Lemma hover_pipes :
  pipes (run hover initial)
  = [Pipe.mk (40 # 1) (1450 # 8) (2650 # 8) false;
     Pipe.mk (242 # 1) (1450 # 8) (2650 # 8) false].
Proof. vm_compute. reflexivity. Qed.

Lemma collision_is_overlap_with_a_drawn_pipe_hover :
  (0 < Bird.y (bird (run hover initial))
   /\ Bird.y (bird (run hover initial)) < CANVAS_HEIGHT - BIRD_SIZE
   /\ Forall (fun p => 0 < Pipe.topHeight p
                       /\ Pipe.bottomY p < CANVAS_HEIGHT)
             (pipes (run hover initial)))
  /\ (checkCollision (bird (run hover initial)) (pipes (run hover initial))
      = true <->
      exists r, In ("#228B22"%string, r) (picture (355 # 113) (run hover initial))
                /\ rectOverlap (birdBox (bird (run hover initial))) r).
Proof.
  assert (H0 : 0 < Bird.y (bird (run hover initial)))
    by (vm_compute; reflexivity).
  assert (H1 : Bird.y (bird (run hover initial))
               < CANVAS_HEIGHT - BIRD_SIZE)
    by (vm_compute; reflexivity).
  assert (H2 : Forall (fun p => 0 < Pipe.topHeight p
                                /\ Pipe.bottomY p < CANVAS_HEIGHT)
                      (pipes (run hover initial))).
  { rewrite hover_pipes. repeat constructor. }
  split; [repeat split; assumption|].
  exact (collision_is_overlap_with_a_drawn_pipe (355 # 113)
           (run hover initial) H0 H1 H2).
Defined.

(** X13: the ground is drawn as a strip 20 high, but the game ends at
    the ground only when the bird's upper edge reaches the top of that
    strip.  A bird at x = 100 with 560 < y < 580 overlaps the strip that
    [draw] fills for the ground, and the test of line 70 does not
    fire. *)
Theorem bird_sinks_into_the_ground (PI : Q) (g : State Q) :
  Bird.x (bird g) == 100 ->
  560 < Bird.y (bird g) -> Bird.y (bird g) < 580 ->
  In ("#8B4513"%string, groundStrip) (picture PI g)
  /\ rectOverlap (birdBox (bird g)) groundStrip
  /\ checkCollision (bird g) [] = false.
Proof.
  intros Hx Hy0 Hy1. split; [|split].
  - rewrite picture_eq. right. apply in_or_app. right. left. reflexivity.
  - unfold groundStrip. rewrite rectOverlap_birdBox, !overlap_from.
    rewrite Hx. to_Q. repeat split; lra.
  - apply clear_facts. repeat split; try lra. intros p [].
Qed.

Lemma bird_sinks_into_the_ground_at_570 :
  (Bird.x (bird (mkState (Bird.mk 100 570 10) [] 0 playing 0)) == 100
   /\ 560 < Bird.y (bird (mkState (Bird.mk 100 570 10) [] 0 playing 0))
   /\ Bird.y (bird (mkState (Bird.mk 100 570 10) [] 0 playing 0)) < 580)
  /\ In ("#8B4513"%string, groundStrip)
        (picture (355 # 113) (mkState (Bird.mk 100 570 10) [] 0 playing 0))
  /\ rectOverlap
       (birdBox (bird (mkState (Bird.mk 100 570 10) [] 0 playing 0)))
       groundStrip
  /\ checkCollision (bird (mkState (Bird.mk 100 570 10) [] 0 playing 0)) []
     = false.
Proof.
  split; [repeat split; cbn; lra|].
  apply (bird_sinks_into_the_ground (355 # 113)
           (mkState (Bird.mk 100 570 10) [] 0 playing 0)); cbn; lra.
Defined.

(** X14: the caps are drawn wider than the pipe is for the collision
    test.  For every pipe of the state [draw] fills a cap 5 wider on
    either side than the body; a bird whose square reaches into the top
    cap from the left, without reaching the body, overlaps what is drawn
    and is not hit by that pipe. *)
Theorem cap_rim_is_not_hit (PI : Q) (g : State Q) (p : Pipe.t Q) :
  In p (pipes g) ->
  Pipe.x p - 5 < Bird.x (bird g) + BIRD_SIZE ->
  Bird.x (bird g) + BIRD_SIZE <= Pipe.x p ->
  Pipe.topHeight p - 40 < Bird.y (bird g) ->
  Bird.y (bird g) < Pipe.topHeight p ->
  In ("#32CD32"%string, topCap p) (picture PI g)
  /\ rectOverlap (birdBox (bird g)) (topCap p)
  /\ hitsPipe (bird g) p = false.
Proof.
  intros Hin Hx0 Hx1 Hy0 Hy1. to_Q. split; [|split].
  - rewrite picture_eq. right. apply in_or_app. left.
    apply in_flat_map. exists p. split; [exact Hin|].
    unfold pipeRects. cbn [In]. tauto.
  - unfold topCap. rewrite rectOverlap_birdBox, !overlap_from. to_Q.
    repeat split; lra.
  - apply hitsPipe_apart. left. exact Hx1.
Qed.

Lemma cap_rim_is_not_hit_example :
  (In (Pipe.mk 122 200 350 false)
      (pipes (mkState (Bird.mk 100 190 0) [Pipe.mk 122 200 350 false]
                      0 playing 0))
   /\ Pipe.x (Pipe.mk 122 200 350 false) - 5
      < Bird.x (Bird.mk 100 190 0) + BIRD_SIZE
   /\ Bird.x (Bird.mk 100 190 0) + BIRD_SIZE
      <= Pipe.x (Pipe.mk 122 200 350 false)
   /\ Pipe.topHeight (Pipe.mk 122 200 350 false) - 40
      < Bird.y (Bird.mk 100 190 0)
   /\ Bird.y (Bird.mk 100 190 0)
      < Pipe.topHeight (Pipe.mk 122 200 350 false))
  /\ In ("#32CD32"%string, topCap (Pipe.mk 122 200 350 false))
        (picture (355 # 113)
           (mkState (Bird.mk 100 190 0) [Pipe.mk 122 200 350 false]
                    0 playing 0))
  /\ rectOverlap (birdBox (Bird.mk 100 190 0))
                 (topCap (Pipe.mk 122 200 350 false))
  /\ hitsPipe (Bird.mk 100 190 0) (Pipe.mk 122 200 350 false) = false.
Proof.
  split.
  - split; [left; reflexivity|]. cbn. to_Q. repeat split; lra.
  - apply (cap_rim_is_not_hit (355 # 113)
             (mkState (Bird.mk 100 190 0) [Pipe.mk 122 200 350 false]
                      0 playing 0) (Pipe.mk 122 200 350 false));
      [left; reflexivity | | | |]; cbn; to_Q; lra.
Defined.

End ExactPictureFacts.

Section ExactBirdX.
Local Open Scope Q_scope.

Lemma bird_x_never_changes_hover :
  reachable (run hover initial)
  /\ Bird.x (bird (run hover initial)) = num_lit 100.
Proof.
  split; [exact hover_reachable|].
  exact (bird_x_never_changes (run hover initial) hover_reachable).
Defined.

End ExactBirdX.

(** ** Further facts on collisions, points and the bird's coordinates *)

Section CollisionLists.
Context {num : Type} `{Number num}.
Local Open Scope js_scope.

Lemma checkCollision_app (b : Bird.t num) (ps qs : list (Pipe.t num)) :
  checkCollision b (ps ++ qs)
  = (checkCollision b ps || checkCollision b qs)%bool.
Proof.
  unfold checkCollision.
  destruct ((Bird.y b <=? num_lit 0)
            || (Bird.y b >=? CANVAS_HEIGHT - BIRD_SIZE))%bool;
    [reflexivity | apply existsb_app].
Qed.

Lemma checkCollision_same_pipes (b : Bird.t num) (ps qs : list (Pipe.t num)) :
  (forall p, In p ps <-> In p qs) ->
  checkCollision b ps = checkCollision b qs.
Proof.
  intros Hsame. apply eq_true_iff_eq. rewrite !checkCollision_true_iff.
  split; (intros [Hy | [Hy | (p & Hin & Hp)]]; [tauto | tauto |]);
    right; right; exists p; (split; [apply Hsame; exact Hin | exact Hp]).
Qed.

(** X15: the answer of [checkCollision] does not depend on the order of
    the pipes or on repetitions, only on which pipes there are; and on
    two arrays put together it is the disjunction of the answers on
    each: the early return of the loop loses nothing.  In every reading
    of [number]. *)
Theorem checkCollision_on_arrays
  (b : Bird.t num) (ps qs : list (Pipe.t num)) :
  checkCollision b (ps ++ qs)
  = (checkCollision b ps || checkCollision b qs)%bool
  /\ ((forall p, In p ps <-> In p qs) ->
      checkCollision b ps = checkCollision b qs)
  /\ checkCollision b (rev ps) = checkCollision b ps.
Proof.
  split; [apply checkCollision_app|].
  split; [apply checkCollision_same_pipes|].
  apply checkCollision_same_pipes. intros p. symmetry. apply in_rev.
Qed.

End CollisionLists.

Section ExactPoints.
Local Open Scope Q_scope.

Lemma evenlySpaced_ahead (p : Pipe.t Q) (rest : list (Pipe.t Q)) :
  evenlySpaced (p :: rest) ->
  Forall (fun q => Pipe.x p + 202 <= Pipe.x q) rest.
Proof.
  intros Hp. destruct rest as [|q rest]; [constructor|].
  destruct Hp as [Hq Hrest]. constructor; [lra|].
  pose proof (evenlySpaced_increasing q rest Hrest) as Hinc.
  revert Hinc. apply Forall_impl. intros r Hr. lra.
Qed.

Lemma crossing_at_most_one (g : State Q) :
  Course g -> (length (filter (crossesNow g) (pipes g)) <= 1)%nat.
Proof.
  intros [Hx Hwin _ Heven _ _].
  assert (Hnear : forall p, crossesNow g p = true -> Pipe.x p < 42).
  { intros p Hc. unfold crossesNow in Hc.
    apply andb_true_iff in Hc as [_ Hc]. apply ltb_lt in Hc.
    rewrite Hx in Hc. to_Q. lra. }
  induction (pipes g) as [|p rest IH]; [cbn; lia|].
  inversion Hwin as [|? ? [Hp _] Hwin']; subst.
  cbn [filter]. destruct (crossesNow g p) eqn:Hc.
  - pose proof (evenlySpaced_ahead p rest Heven) as Hahead.
    assert (Hnone : filter (crossesNow g) rest = []).
    { clear IH Hwin Hwin' Heven.
      induction Hahead as [|q rest Hq Hahead IH]; [reflexivity|].
      cbn [filter]. destruct (crossesNow g q) eqn:Hcq; [|exact IH].
      exfalso. pose proof (Hnear q Hcq). lra. }
    rewrite Hnone. cbn. lia.
  - apply IH; [exact Hwin' | exact (evenlySpaced_tail p rest Heven)].
Qed.

(** X16: from every reachable state a frame adds at most one point. *)
Theorem at_most_one_point_a_frame (random : Q) (g : State Q) :
  reachable g ->
  (score g <= score (gameLoop random g) <= score g + 1)%Z.
Proof.
  intros Hreach. destruct (gameState g) eqn:Hg;
    try (rewrite gameLoop_idle by congruence; lia).
  rewrite (gameLoop_playing random g Hg). cbn [score].
  rewrite (gained_counts random g (reachable_invariant g Hreach Hg)).
  pose proof (crossing_at_most_one g (reachable_course g Hreach)). lia.
Qed.

Lemma at_most_one_point_a_frame_hover :
  reachable (run hover initial)
  /\ (score (run hover initial)
      <= score (gameLoop (3 # 8) (run hover initial))
      <= score (run hover initial) + 1)%Z.
Proof.
  split; [exact hover_reachable|].
  exact (at_most_one_point_a_frame (3 # 8) (run hover initial)
           hover_reachable).
Defined.

Lemma halfInteger_step (e : Event Q) (g : State Q) :
  halfInteger (Bird.y (bird g)) /\ halfInteger (Bird.velocity (bird g)) ->
  halfInteger (Bird.y (bird (step e g)))
  /\ halfInteger (Bird.velocity (bird (step e g))).
Proof.
  intros [(ky & Hy) (kv & Hv)].
  assert (Hstart : halfInteger (Bird.y (@startBird Q _))
                   /\ halfInteger (Bird.velocity (@startBird Q _))).
  { split; [exists 600%Z | exists 0%Z]; vm_compute; reflexivity. }
  destruct e as [random|]; unfold step.
  - destruct (gameState g) eqn:Hg;
      try (rewrite gameLoop_idle by congruence;
           split; [exists ky | exists kv]; assumption).
    rewrite (gameLoop_playing random g Hg).
    cbn [bird fall Bird.y Bird.velocity].
    split; [exists (ky + kv + 1)%Z | exists (kv + 1)%Z];
      rewrite ?Hy, Hv, !inject_Z_plus; to_Q; ring.
  - unfold jump. destruct (gameState g); cbn [initGame bird];
      [exact Hstart | | exact Hstart].
    cbn [Bird.y Bird.velocity].
    split; [exists ky; exact Hy | exists (-16)%Z; vm_compute; reflexivity].
Qed.

(** X17: in every reachable state the bird's y and velocity are integer
    multiples of 1/2. *)
Theorem bird_moves_by_halves (g : State Q) :
  reachable g ->
  halfInteger (Bird.y (bird g)) /\ halfInteger (Bird.velocity (bird g)).
Proof.
  intros Hg. induction Hg as [|e g He Hg IH].
  - split; [exists 600%Z | exists 0%Z]; vm_compute; reflexivity.
  - apply halfInteger_step. exact IH.
Qed.

Lemma bird_moves_by_halves_hover :
  reachable (run hover initial)
  /\ halfInteger (Bird.y (bird (run hover initial)))
  /\ halfInteger (Bird.velocity (bird (run hover initial))).
Proof.
  split; [exact hover_reachable|].
  exact (bird_moves_by_halves (run hover initial) hover_reachable).
Defined.

End ExactPoints.
